(** * The marketplace manifest builder

    A shallow embedding of [bin/generate-modes-marketplace.ts]: the script
    that lists the [modes] directory, parses every mode file, sorts the
    parsed modes by [id] and writes them back as [marketplace.yaml].

    The script is straight-line code over four platform services: the
    [fs] module, the [yaml] package, [String.prototype.localeCompare] and
    [Array.prototype.sort].  The file system is modelled as explicit
    state, uncaught exceptions as an error result, and the pure library
    functions the script calls ([yaml.parse] with the exception it
    raises, [Document.toString], [localeCompare]) are the fields of a
    record [platform] that every definition takes as a parameter, so that
    the theorems hold for whatever those libraries compute.

    The last part embeds the step of [bin/update-skills.ts] that
    re-applies the source metadata to the document of an updated
    skill. *)

From Stdlib Require Import String Ascii List ZArith Lia Bool.
From Stdlib Require Import Permutation Sorted DecimalString OrderedTypeEx.
Import ListNotations.

Local Open Scope string_scope.
Local Open Scope list_scope.
Local Set Warnings "-register-all".

(** ** Parsed documents *)

(** What a YAML parser returns: plain JavaScript data, a tree of own
    properties.  A number is kept by its decimal rendering, which is all
    the scripts observe of it (through string conversion and
    truthiness).  [VSeqWith] is an array that has been given named
    properties besides its elements, which is what assigning a property
    to an array produces; no parser returns one. *)
Inductive value : Type :=
| VNull
| VBool (b : bool)
| VNum (repr : string)
| VStr (s : string)
| VSeq (elements : list value)
| VSeqWith (elements : list value) (props : list (string * value))
| VMap (fields : list (string * value)).

(** Uncaught exceptions a script can end with; [Other] is any further
    exception, by the name of its class or its system error code. *)
Inductive exn : Type :=
| ENOENT
| EISDIR
| YAMLParseError
| ReferenceError
| TypeError
| Other (name : string).

Inductive result (A : Type) : Type :=
| Ok (a : A)
| Throw (e : exn).
Arguments Ok {A} a.
Arguments Throw {A} e.

Definition rbind {A B} (r : result A) (k : A -> result B) : result B :=
  match r with
  | Ok a => k a
  | Throw e => Throw e
  end.

Fixpoint lookup {A} (key : string) (l : list (string * A)) : option A :=
  match l with
  | [] => None
  | (k, v) :: rest => if String.eqb k key then Some v else lookup key rest
  end.

(** The own property [key] of a value that is not [null], for the keys
    the scripts read ([name], [id], [metadata], [category], [source]),
    which no built-in prototype defines: [None] is [undefined]. *)
Definition prop_of (v : value) (key : string) : option value :=
  match v with
  | VMap fields => lookup key fields
  | VSeqWith _ props => lookup key props
  | _ => None
  end.

(** [v.key]: reading a property of [null] raises a TypeError. *)
Definition get_prop (v : value) (key : string) : result (option value) :=
  match v with
  | VNull => Throw TypeError
  | _ => Ok (prop_of v key)
  end.

Definition has_key {A} (key : string) (l : list (string * A)) : bool :=
  match lookup key l with
  | Some _ => true
  | None => false
  end.

(** [Array.prototype.join] with the default separator, over a conversion
    [f] of the elements: [null] counts as empty, and the join raises as
    soon as the conversion of an element does. *)
Section ArrayJoin.
Variable f : value -> result string.

Fixpoint array_join (l : list value) : result string :=
  match l with
  | [] => Ok EmptyString
  | x :: rest =>
      rbind (match x with
             | VNull => Ok EmptyString
             | _ => f x
             end) (fun s =>
        match rest with
        | [] => Ok s
        | _ => rbind (array_join rest) (fun r => Ok (s ++ "," ++ r)%string)
        end)
  end.
End ArrayJoin.

(** JavaScript's ToString on data, as used by the template literal and by
    the argument of [localeCompare].  An object is converted through its
    [toString]: a mapping with a key [toString] of its own has no
    callable one and the conversion raises a TypeError; an array joins
    the conversions of its elements. *)
Fixpoint to_js_string (v : value) : result string :=
  match v with
  | VNull => Ok "null"
  | VBool true => Ok "true"
  | VBool false => Ok "false"
  | VNum repr => Ok repr
  | VStr s => Ok s
  | VSeq elements => array_join to_js_string elements
  | VSeqWith elements props =>
      if has_key "toString" props then Throw TypeError
      else if has_key "join" props then Ok "[object Array]"
      else array_join to_js_string elements
  | VMap fields =>
      if has_key "toString" fields then Throw TypeError
      else Ok "[object Object]"
  end.

Definition js_string_of (o : option value) : result string :=
  match o with
  | None => Ok "undefined"
  | Some v => to_js_string v
  end.

(** [s.endsWith(suffix)] *)
Definition endsWith (s suffix : string) : bool :=
  let n := String.length s in
  let m := String.length suffix in
  (m <=? n)%nat && String.eqb (substring (n - m) m s) suffix.

Definition newline : string := String "010"%char EmptyString.

Definition string_of_nat (n : nat) : string :=
  NilEmpty.string_of_uint (Nat.to_uint n).

(** ** The file system and the console *)

(** An entry of the directory: a regular file, a directory, or a link
    whose target does not exist.  Entries are taken to be independent: no
    two names stand for one file. *)
Inductive node : Type :=
| File (content : string)
| Dir
| Dangling.

(** The entries of the [modes] directory, in the order [readdirSync]
    reports them. *)
Definition directory : Type := list (string * node).

(** The [modes] directory; [None] when it does not exist. *)
Definition world : Type := option directory.

(** What a run does, in order. *)
Inductive event : Type :=
| Listed
| ReadFile (file : string)
| Logged (line : string)
| Wrote (file : string) (data : string).

(** Writing a file replaces the entry of that name, or adds one at the
    end; the other entries keep their place in the listing. *)
Fixpoint store (file data : string) (d : directory) : directory :=
  match d with
  | [] => [(file, File data)]
  | (k, n) :: rest =>
      if String.eqb k file then (k, File data) :: rest
      else (k, n) :: store file data rest
  end.

(** A computation: from a world to a result, the world it leaves and the
    events it performed.  An exception stops the computation; what was
    done before it stays done. *)
Definition M (A : Type) : Type := world -> result A * world * list event.

Definition ret {A} (a : A) : M A := fun w => (Ok a, w, []).

Definition bind {A B} (m : M A) (k : A -> M B) : M B :=
  fun w =>
    match m w with
    | (Ok a, w1, ev1) =>
        match k a w1 with
        | (r, w2, ev2) => (r, w2, ev1 ++ ev2)
        end
    | (Throw e, w1, ev1) => (Throw e, w1, ev1)
    end.

Definition lift {A} (r : result A) : M A := fun w => (r, w, []).

Notation "x <- m ;; k" := (bind m (fun x => k))
  (at level 61, m at next level, right associativity).
Notation "m ;;; k" := (bind m (fun _ => k))
  (at level 61, right associativity).

Definition outcome {A} (run : result A * world * list event) : result A :=
  fst (fst run).
Definition final {A} (run : result A * world * list event) : world :=
  snd (fst run).
Definition events {A} (run : result A * world * list event) : list event :=
  snd run.

(** [fs.readdirSync(modesDir)] *)
Definition readdirSync : M (list string) :=
  fun w =>
    match w with
    | None => (Throw ENOENT, w, [])
    | Some d => (Ok (map fst d), w, [Listed])
    end.

(** [fs.readFileSync(path.join(modesDir, file), "utf-8")] *)
Definition readFileSync (file : string) : M string :=
  fun w =>
    match w with
    | None => (Throw ENOENT, w, [])
    | Some d =>
        match lookup file d with
        | Some (File content) => (Ok content, w, [ReadFile file])
        | Some Dir => (Throw EISDIR, w, [])
        | Some Dangling => (Throw ENOENT, w, [])
        | None => (Throw ENOENT, w, [])
        end
    end.

(** [fs.writeFileSync(path.join(modesDir, file), data)], run to its end:
    the write is taken to succeed wherever the target is not a
    directory.  Its stages are modelled further down. *)
Definition writeFileSync (file data : string) : M unit :=
  fun w =>
    match w with
    | None => (Throw ENOENT, w, [])
    | Some d =>
        match lookup file d with
        | Some Dir => (Throw EISDIR, w, [])
        | _ => (Ok tt, Some (store file data d), [Wrote file data])
        end
    end.

(** [console.log(line)] *)
Definition console_log (line : string) : M unit :=
  fun w => (Ok tt, w, [Logged line]).

(** [array.map(f)] with a callback that has effects: left to right. *)
Fixpoint array_map {A B} (f : A -> M B) (l : list A) : M (list B) :=
  match l with
  | [] => ret []
  | x :: rest =>
      y <- f x ;;
      ys <- array_map f rest ;;
      ret (y :: ys)
  end.

(** ** [Array.prototype.sort]

    ECMAScript requires the sort to be stable and leaves the order of the
    comparator calls to the implementation.  The sort of Node calls
    [comparefn(later, earlier)]: the receiver is the element that stands
    later in the array, and it is moved before the other when the result
    is negative.  It is modelled as a stable insertion sort that does the
    same: each element in turn is inserted among the sorted elements
    before it, compared first with the one next to it.  An array of
    fewer than two elements is returned without any call, and the first
    element of the array is never the receiver. *)
Section ArraySort.
Context {A : Type}.
Variable comparefn : A -> A -> result Z.

(** Inserts [x] among the sorted elements before it, which are held
    last first. *)
Fixpoint insert_sorted (x : A) (before : list A) : result (list A) :=
  match before with
  | [] => Ok [x]
  | y :: rest =>
      rbind (comparefn x y) (fun c =>
        if (c <? 0)%Z
        then rbind (insert_sorted x rest) (fun l' => Ok (y :: l'))
        else Ok (x :: y :: rest))
  end.

(** Sorts the elements, given last first, into that same direction. *)
Fixpoint sort_backwards (l : list A) : result (list A) :=
  match l with
  | [] => Ok []
  | x :: rest => rbind (sort_backwards rest) (insert_sorted x)
  end.

Definition array_sort (l : list A) : result (list A) :=
  rbind (sort_backwards (rev l)) (fun r => Ok (rev r)).
End ArraySort.

(** ** The script *)

Definition marketplace : string := "marketplace.yaml".

(** The library functions the script calls.  They are not part of the
    repository; the script is verified for any implementation. *)
Record platform : Type := {
  (** [yaml.parse(content)]; [None] when it raises. *)
  yaml_parse : string -> option value;
  (** The exception [yaml.parse(content)] raises, when it does. *)
  parse_error : string -> exn;
  (** [new Document(v).toString({ lineWidth })] *)
  stringify : value -> Z -> string;
  (** [a.localeCompare(b)] *)
  localeCompare : string -> string -> Z
}.

Section Builder.
Variable P : platform.

Definition parse (content : string) : result value :=
  match yaml_parse P content with
  | Some v => Ok v
  | None => Throw (parse_error P content)
  end.

(** [(file) => file.endsWith(".yaml") && file !== "marketplace.yaml"] *)
Definition selected (file : string) : bool :=
  endsWith file ".yaml" && negb (String.eqb file marketplace).

(** The callback of [map]: read, parse, log the name, return the mode. *)
Definition load_mode (file : string) : M value :=
  content <- readFileSync file ;;
  mode <- lift (parse content) ;;
  name <- lift (get_prop mode "name") ;;
  text <- lift (js_string_of name) ;;
  console_log ("Added: " ++ text) ;;;
  ret mode.

(** [(a, b) => a.id.localeCompare(b.id)]: the receiver must be a
    string, the argument is converted to one. *)
Definition compare_ids (a b : value) : result Z :=
  rbind (get_prop a "id") (fun ida =>
    match ida with
    | Some (VStr s) =>
        rbind (get_prop b "id") (fun idb =>
          rbind (js_string_of idb) (fun that =>
            Ok (localeCompare P s that)))
    | _ => Throw TypeError
    end).

(** [const items = fs.readdirSync(..).filter(..).map(..).sort(..)] *)
Definition items : M (list value) :=
  files <- readdirSync ;;
  modes <- array_map load_mode (filter selected files) ;;
  lift (array_sort compare_ids modes).

(** [new Document({ items })] *)
Definition document (its : list value) : value :=
  VMap [("items", VSeq its)].

Definition lineWidth : Z := 120.

(** [doc.toString({ lineWidth: 120 })] *)
Definition output (its : list value) : string :=
  stringify P (document its) lineWidth.

Definition summary (its : list value) : string :=
  newline ++ "Generated marketplace.yaml with "
  ++ string_of_nat (List.length its) ++ " modes".

Definition main : M unit :=
  its <- items ;;
  writeFileSync marketplace (output its) ;;;
  console_log (summary its).
End Builder.

(** ** Notions used in the statements *)

(** The [id] of a mode, as a string; empty when the mode has no string
    [id]. *)
Definition id_str (v : value) : string :=
  match prop_of v "id" with
  | Some (VStr s) => s
  | _ => EmptyString
  end.

Definition has_string_id (v : value) : Prop :=
  exists s, get_prop v "id" = Ok (Some (VStr s)).


(** What ECMAScript asks of [localeCompare]: a consistent comparator,
    that is, a total preorder given by the sign of the result. *)
Record consistent (cmp : string -> string -> Z) : Prop := {
  cmp_refl : forall a, cmp a a = 0%Z;
  cmp_antisym : forall a b, (cmp a b < 0)%Z <-> (0 < cmp b a)%Z;
  cmp_trans : forall a b c, (cmp a b <= 0)%Z -> (cmp b c <= 0)%Z -> (cmp a c <= 0)%Z
}.

(** The order of two modes in the output: by [localeCompare] on [id]. *)
Definition id_le (P : platform) (a b : value) : Prop :=
  (localeCompare P (id_str a) (id_str b) <= 0)%Z.
Definition id_lt (P : platform) (a b : value) : Prop :=
  (localeCompare P (id_str a) (id_str b) < 0)%Z.

(** The names of the files the script goes on to read, in the order in
    which the directory lists them. *)
Definition inputs (d : directory) : list string :=
  filter selected (map fst d).

(** The scanned entries of a directory: the parses of the selected files,
    in the order the files were discovered. *)
Definition scanned (P : platform) (d : directory) (vs : list value) : Prop :=
  Forall2 (fun f v => exists c, lookup f d = Some (File c)
                                /\ yaml_parse P c = Some v)
    (inputs d) vs.

(** The node at the output location. *)
Definition manifest_of (w : world) : option node :=
  match w with
  | Some d => lookup marketplace d
  | None => None
  end.

Definition is_write (e : event) : bool :=
  match e with
  | Wrote _ _ => true
  | _ => false
  end.

(** A read is of a selected file. *)
Definition read_selected (e : event) : Prop :=
  match e with
  | ReadFile f => endsWith f ".yaml" = true /\ f <> marketplace
  | _ => True
  end.

(** The [name] of a mode that is not [null]; [None] for [undefined]. *)
Definition name_of (v : value) : option value := prop_of v "name".

(** The line logged for a loaded mode, one whose [name] converts to a
    string. *)
Definition added (v : value) : string :=
  "Added: " ++ match js_string_of (name_of v) with
               | Ok text => text
               | Throw _ => EmptyString
               end.

(** File [f] of directory [d] loads to mode [v]: it is a regular file
    whose content parses to [v], [v] is not [null], and the [name] of [v]
    converts to a string. *)
Definition loads_to (P : platform) (d : directory) (f : string) (v : value)
    : Prop :=
  exists c, lookup f d = Some (File c) /\ yaml_parse P c = Some v
            /\ v <> VNull
            /\ exists text, js_string_of (name_of v) = Ok text.

(** The ways in which loading file [f] fails, each with the exception
    raised and the events performed before it. *)
Inductive load_fails (P : platform) (d : directory) (f : string)
    : exn -> list event -> Prop :=
| fails_directory :
    lookup f d = Some Dir -> load_fails P d f EISDIR []
| fails_dangling :
    lookup f d = Some Dangling -> load_fails P d f ENOENT []
| fails_parse c :
    lookup f d = Some (File c) -> yaml_parse P c = None ->
    load_fails P d f (parse_error P c) [ReadFile f]
| fails_null c :
    lookup f d = Some (File c) -> yaml_parse P c = Some VNull ->
    load_fails P d f TypeError [ReadFile f]
| fails_name c v e :
    lookup f d = Some (File c) -> yaml_parse P c = Some v -> v <> VNull ->
    js_string_of (name_of v) = Throw e ->
    load_fails P d f e [ReadFile f].

(** The events of loading [files] to the modes [vs], one after the
    other: for each file its read, then the line logged for its mode. *)
Fixpoint load_trace (files : list string) (vs : list value) : list event :=
  match files, vs with
  | f :: files', v :: vs' =>
      ReadFile f :: Logged (added v) :: load_trace files' vs'
  | _, _ => []
  end.

(** ** [writeFileSync], step by step

    [fs.writeFileSync(path, data)] opens [path] with flag ['w'], which
    creates the file or truncates it, then writes [data], in one or more
    chunks, and closes.  The stages below are the points at which an
    interruption can leave the file. *)
Inductive write_stage : Type :=
| NotStarted
| Writing (written : nat)
| Closed.

Inductive write_step (data : string) : write_stage -> write_stage -> Prop :=
| step_open : write_step data NotStarted (Writing 0)
| step_chunk n k :
    0 < k -> n + k <= String.length data ->
    write_step data (Writing n) (Writing (n + k))
| step_close : write_step data (Writing (String.length data)) Closed.

Inductive write_reaches (data : string) : write_stage -> Prop :=
| reach_start : write_reaches data NotStarted
| reach_step st st' :
    write_reaches data st -> write_step data st st' -> write_reaches data st'.

(** The directory as an interruption at stage [st] leaves it. *)
Definition during_write (file data : string) (d : directory)
    (st : write_stage) : directory :=
  match st with
  | NotStarted => d
  | Writing n => store file (substring 0 n data) d
  | Closed => store file data d
  end.

(** ** A platform for the examples

    The general theorems hold for every platform.  The examples are run
    on [libs]: [yaml.parse] on the few texts the examples use (any
    other text counts as unparsable), a block-style printer for a
    sequence of flat mappings, and comparison by character code.  [icu]
    differs from it in the comparison, which is [collate]. *)
Module Sample.
Definition lines (ls : list string) : string :=
  String.concat EmptyString (map (fun l => l ++ newline)%string ls).

Definition mode_a : string := lines ["id: a"; "name: A"].
Definition mode_z : string := lines ["id: z"; "name: Z"].
Definition dup_1 : string := lines ["id: dup"; "name: First"].
Definition dup_2 : string := lines ["id: dup"; "name: Second"].
Definition no_fields : string := lines ["description: notes"].
Definition unclosed : string := "id: [unclosed".
Definition mode_upper : string := lines ["id: B"; "name: Upper"].
Definition odd_name : string := lines ["id: odd"; "name:"; "  toString: text"].

Definition flat (fields : list (string * string)) : value :=
  VMap (map (fun kv => (fst kv, VStr (snd kv))) fields).

Definition documents : list (string * option value) :=
  [ (EmptyString, Some VNull);
    (mode_a, Some (flat [("id", "a"); ("name", "A")]));
    (mode_z, Some (flat [("id", "z"); ("name", "Z")]));
    (dup_1, Some (flat [("id", "dup"); ("name", "First")]));
    (dup_2, Some (flat [("id", "dup"); ("name", "Second")]));
    (no_fields, Some (flat [("description", "notes")]));
    (mode_upper, Some (flat [("id", "B"); ("name", "Upper")]));
    (odd_name,
     Some (VMap [("id", VStr "odd");
                 ("name", VMap [("toString", VStr "text")])]));
    (unclosed, None) ].

Definition parse_text (content : string) : option value :=
  match lookup content documents with
  | Some r => r
  | None => None
  end.

Definition scalar (v : value) : string :=
  match to_js_string v with
  | Ok text => text
  | Throw _ => EmptyString
  end.

Definition print_item (v : value) : string :=
  match v with
  | VMap ((k, x) :: rest) =>
      lines (("  - " ++ k ++ ": " ++ scalar x)%string
             :: map (fun kv => ("    " ++ fst kv ++ ": "
                                ++ scalar (snd kv))%string) rest)
  | VMap [] => lines ["  - {}"]
  | _ => lines [("  - " ++ scalar v)%string]
  end.

Definition print (v : value) (width : Z) : string :=
  match v with
  | VMap [(k, VSeq [])] => lines [(k ++ ": []")%string]
  | VMap [(k, VSeq its)] =>
      (lines [(k ++ ":")%string]
       ++ String.concat EmptyString (map print_item its))%string
  | _ => scalar v
  end.

Definition by_code (a b : string) : Z :=
  match String.compare a b with
  | Lt => (-1)%Z
  | Eq => 0%Z
  | Gt => 1%Z
  end.

Definition libs : platform :=
  {| yaml_parse := parse_text;
     parse_error := fun _ => YAMLParseError;
     stringify := print;
     localeCompare := by_code |}.

Definition lower (c : ascii) : ascii :=
  let n := nat_of_ascii c in
  if ((65 <=? n) && (n <=? 90))%nat then ascii_of_nat (n + 32) else c.

Fixpoint lower_string (s : string) : string :=
  match s with
  | EmptyString => EmptyString
  | String c rest => String (lower c) (lower_string rest)
  end.

(** Comparison as the collation of the host orders words of ASCII
    letters: alphabetically without regard to case, and lower case first
    among words that differ in case only. *)
Definition collate (a b : string) : Z :=
  match String.compare (lower_string a) (lower_string b) with
  | Lt => (-1)%Z
  | Gt => 1%Z
  | Eq => by_code b a
  end.

Definition icu : platform :=
  {| yaml_parse := parse_text;
     parse_error := fun _ => YAMLParseError;
     stringify := print;
     localeCompare := collate |}.
End Sample.

(** ** Re-applying the source metadata ([bin/update-skills.ts])

    After [updateFromRepo] has copied the upstream directory over the
    local one, it parses the new [SKILL.md], carries the local category
    over when upstream sets none, writes the source of the skill into the
    metadata and prints the document back.  [matter] and
    [matter.stringify] belong to the [gray-matter] package and are
    parameters. *)

(** Setting a key keeps its place among the properties, or adds it at
    the end. *)
Fixpoint set_field (key : string) (v : value) (m : list (string * value))
    : list (string * value) :=
  match m with
  | [] => [(key, v)]
  | (k, x) :: rest =>
      if String.eqb k key then (k, v) :: rest
      else (k, x) :: set_field key v rest
  end.

Module UpdateSkills.

(** [interface SourceInfo]; at run time the two fields hold whatever
    truthy values the local front matter gave. *)
Record SourceInfo : Type := {
  repository : value;
  path : value
}.

(** [interface SkillInfo] *)
Record SkillInfo : Type := {
  name : string;
  dir : string;
  source : SourceInfo;
  frontmatter : value
}.

Record gray_matter : Type := {
  (** [matter(content)]: its [data] and [content] *)
  matter : string -> result (value * string);
  (** [matter.stringify(body, data)] *)
  matter_stringify : string -> value -> result string
}.

(** What JavaScript takes for true in a condition: all but [null],
    [false], the numbers zero and NaN, and the empty string. *)
Definition truthy (v : value) : bool :=
  match v with
  | VNull => false
  | VBool b => b
  | VNum repr => negb (String.eqb repr "0") && negb (String.eqb repr "NaN")
  | VStr s => negb (String.eqb s EmptyString)
  | _ => true
  end.

Definition truthy_opt (o : option value) : bool :=
  match o with
  | None => false
  | Some v => truthy v
  end.

(** [o?.key] *)
Definition get_opt (o : option value) (key : string) : option value :=
  match o with
  | None => None
  | Some VNull => None
  | Some v => prop_of v key
  end.

(** [o.key = v] in a module, which is strict code: the property is set on
    a mapping or an array; on [null] and on a scalar the assignment
    raises a TypeError. *)
Definition set_prop (o : value) (key : string) (v : value) : result value :=
  match o with
  | VMap fields => Ok (VMap (set_field key v fields))
  | VSeq elements => Ok (VSeqWith elements [(key, v)])
  | VSeqWith elements props => Ok (VSeqWith elements (set_field key v props))
  | _ => Throw TypeError
  end.

(** [{ repository: skill.source.repository, path: skill.source.path }] *)
Definition source_object (skill : SkillInfo) : value :=
  VMap [("repository", repository (source skill));
        ("path", path (source skill))].

(** [skill.frontmatter?.metadata?.category] *)
Definition local_category (skill : SkillInfo) : option value :=
  get_opt (get_opt (Some (frontmatter skill)) "metadata") "category".

(** The update of the parsed front matter, from "Ensure metadata object
    exists" to "Re-inject source info".  The script changes the objects
    in place; here the changed metadata is put back under its key. *)
Definition reinject (skill : SkillInfo) (newFrontmatter : value)
    : result value :=
  rbind (get_prop newFrontmatter "metadata") (fun m =>
  rbind (if truthy_opt m then Ok newFrontmatter
         else set_prop newFrontmatter "metadata" (VMap [])) (fun nf =>
  rbind (get_prop nf "metadata") (fun m1 =>
    match m1 with
    | None => Throw TypeError
    | Some md =>
        rbind (get_prop md "category") (fun category =>
        rbind (if negb (truthy_opt category) && truthy_opt (local_category skill)
               then match local_category skill with
                    | Some c => set_prop md "category" c
                    | None => Ok md
                    end
               else Ok md) (fun md1 =>
        rbind (set_prop md1 "source" (source_object skill)) (fun md2 =>
        set_prop nf "metadata" md2)))
    end))).

Definition skill_md : string := "SKILL.md".

Definition check_mark : string :=
  String "226"%char (String "156"%char (String "147"%char EmptyString)).

(** "Re-apply source metadata to SKILL.md", run in the directory of the
    skill once the upstream files are copied into it. *)
Definition reapply_source (L : gray_matter) (skill : SkillInfo) : M unit :=
  newContent <- readFileSync skill_md ;;
  parsed <- lift (matter L newContent) ;;
  updated <- lift (reinject skill (fst parsed)) ;;
  updatedContent <- lift (matter_stringify L (snd parsed) updated) ;;
  writeFileSync skill_md updatedContent ;;;
  console_log ("  " ++ check_mark ++ " " ++ name skill).

(** Whether [reinject] can go through on a front matter: it is an
    object, and its metadata is not a scalar that counts as true. *)
Definition is_scalar (v : value) : bool :=
  match v with
  | VBool _ | VNum _ | VStr _ => true
  | _ => false
  end.

Definition is_object (v : value) : bool :=
  match v with
  | VSeq _ | VSeqWith _ _ | VMap _ => true
  | _ => false
  end.

Definition scalar_metadata (v : value) : bool :=
  match prop_of v "metadata" with
  | Some m => truthy m && is_scalar m
  | None => false
  end.

(** The metadata [reinject] works on is a mapping: upstream has none or
    one that counts as false, which the script replaces by [{}], or has a
    mapping. *)
Definition mapping_metadata (v : value) : bool :=
  match prop_of v "metadata" with
  | Some (VMap _) => true
  | Some m => negb (truthy m)
  | None => true
  end.

(** The category upstream sets: that of a metadata that counts as
    true. *)
Definition upstream_category (v : value) : option value :=
  match prop_of v "metadata" with
  | Some m => if truthy m then prop_of m "category" else None
  | None => None
  end.

(** A [gray-matter] for the examples: the documents the examples use,
    and a printer of a front matter of strings and mappings. *)
Module Demo.
Definition fenced (front : list string) (body : string) : string :=
  (Sample.lines ("---" :: front) ++ Sample.lines ["---"] ++ body)%string.

Definition scalar_upstream : string :=
  fenced ["name: demo"; "metadata: legacy"] "Body".
Definition bogus_upstream : string :=
  fenced ["name: demo"; "metadata:"; "  source:"; "    repository: elsewhere";
          "    path: other"] "Body".

Definition documents : list (string * (value * string)) :=
  [ (scalar_upstream,
     (VMap [("name", VStr "demo"); ("metadata", VStr "legacy")], "Body"));
    (bogus_upstream,
     (VMap [("name", VStr "demo");
            ("metadata",
             VMap [("source", VMap [("repository", VStr "elsewhere");
                                    ("path", VStr "other")])])],
      "Body")) ].

Definition parse_document (content : string) : result (value * string) :=
  match lookup content documents with
  | Some r => Ok r
  | None => Throw (Other "YAMLException")
  end.

Fixpoint print_data (indent : string) (v : value) : list string :=
  match v with
  | VMap fields =>
      concat (map (fun kv =>
                match snd kv with
                | VMap _ =>
                    (indent ++ fst kv ++ ":")%string
                    :: print_data (indent ++ "  ")%string (snd kv)
                | x => [(indent ++ fst kv ++ ": " ++ Sample.scalar x)%string]
                end) fields)
  | _ => []
  end.

Definition print_document (body : string) (data : value) : result string :=
  Ok (fenced (print_data EmptyString data) (body ++ newline)).

Definition gm : gray_matter :=
  {| matter := parse_document; matter_stringify := print_document |}.

Definition demo : SkillInfo :=
  {| name := "demo";
     dir := "skills/demo";
     source := {| repository := VStr "https://github.com/acme/skills";
                  path := VStr "skills/demo" |};
     frontmatter :=
       VMap [("name", VStr "demo");
             ("metadata",
              VMap [("category", VStr "tools");
                    ("source",
                     VMap [("repository", VStr "https://github.com/acme/skills");
                           ("path", VStr "skills/demo")])])] |}.
End Demo.
End UpdateSkills.

(** ** Basic facts about the embedding *)

(** Proves, by evaluation, that the files of a given directory load to
    given modes. *)
Ltac prove_loads :=
  repeat first
    [ apply Forall2_nil
    | apply Forall2_cons;
      [ eexists; split; [reflexivity|];
        split; [reflexivity|];
        split; [discriminate|];
        eexists; reflexivity
      | ] ].

Ltac unfold_run :=
  unfold main, items, load_mode, parse, bind, lift, ret, console_log,
    readFileSync, readdirSync, writeFileSync, outcome, final, events in *.

Lemma selected_true_iff (file : string) :
  selected file = true <->
  endsWith file ".yaml" = true /\ file <> marketplace.
Proof.
  unfold selected. rewrite andb_true_iff, negb_true_iff.
  split; intros [H1 H2]; split; auto.
  - apply String.eqb_neq; exact H2.
  - apply String.eqb_neq; exact H2.
Qed.

Lemma lookup_store_other {file f data} (d : directory) :
  f <> file -> lookup f (store file data d) = lookup f d.
Proof.
  intros Hne. induction d as [|[k n] rest IH]; simpl.
  - destruct (String.eqb_spec file f); congruence.
  - destruct (String.eqb_spec k file) as [->|Hk]; simpl.
    + destruct (String.eqb_spec file f); congruence.
    + rewrite IH; reflexivity.
Qed.

Lemma lookup_store_same file data (d : directory) :
  lookup file (store file data d) = Some (File data).
Proof.
  induction d as [|[k n] rest IH]; simpl.
  - rewrite String.eqb_refl; reflexivity.
  - destruct (String.eqb_spec k file) as [->|Hk]; simpl.
    + rewrite String.eqb_refl; reflexivity.
    + apply String.eqb_neq in Hk; rewrite Hk; exact IH.
Qed.

Lemma store_store file data data' (d : directory) :
  store file data' (store file data d) = store file data' d.
Proof.
  induction d as [|[k n] rest IH]; simpl.
  - rewrite String.eqb_refl; reflexivity.
  - destruct (String.eqb_spec k file) as [->|Hk]; simpl.
    + rewrite String.eqb_refl; reflexivity.
    + apply String.eqb_neq in Hk; rewrite Hk, IH; reflexivity.
Qed.

Lemma inputs_store data (d : directory) :
  inputs (store marketplace data d) = inputs d.
Proof.
  unfold inputs. induction d as [|[k n] rest IH]; simpl.
  - reflexivity.
  - destruct (String.eqb_spec k marketplace) as [->|Hk]; simpl.
    + reflexivity.
    + rewrite IH; reflexivity.
Qed.

(** ** Facts about the sort *)

Lemma sorted_snoc {A} (R : A -> A -> Prop) (l : list A) (x : A) :
  StronglySorted R l -> Forall (fun y => R y x) l ->
  StronglySorted R (l ++ [x]).
Proof.
  induction 1 as [|y rest Hs IH Hall]; intros Hx; simpl.
  - constructor; constructor.
  - inversion Hx as [|? ? Hyx Hrest]; subst. constructor.
    + apply IH; exact Hrest.
    + apply Forall_app. split; [exact Hall|]. constructor; [exact Hyx|constructor].
Qed.

Lemma sorted_rev {A} (R : A -> A -> Prop) (l : list A) :
  StronglySorted (fun a b => R b a) l -> StronglySorted R (rev l).
Proof.
  induction 1 as [|x rest Hs IH Hall]; simpl; [constructor|].
  apply sorted_snoc; [exact IH|].
  apply Forall_rev. exact Hall.
Qed.


Section SortFacts.
Context {A : Type}.
Variable comparefn : A -> A -> result Z.

Lemma array_sort_backwards l l' :
  array_sort comparefn l = Ok l' ->
  exists r, sort_backwards comparefn (rev l) = Ok r /\ l' = rev r.
Proof.
  unfold array_sort.
  destruct (sort_backwards comparefn (rev l)) as [r|e]; simpl; intros H;
    [|discriminate].
  injection H as <-. exists r. split; reflexivity.
Qed.

Lemma insert_sorted_perm x l l' :
  insert_sorted comparefn x l = Ok l' -> Permutation (x :: l) l'.
Proof.
  revert l'. induction l as [|y rest IH]; simpl; intros l' H.
  - injection H as <-. apply Permutation_refl.
  - destruct (comparefn x y) as [c|e]; simpl in H; [|discriminate].
    destruct (c <? 0)%Z.
    + destruct (insert_sorted comparefn x rest) as [l''|e]; simpl in H;
        [|discriminate].
      injection H as <-.
      eapply Permutation_trans; [apply perm_swap|].
      apply perm_skip, IH; reflexivity.
    + injection H as <-. apply Permutation_refl.
Qed.

Lemma sort_backwards_perm l l' :
  sort_backwards comparefn l = Ok l' -> Permutation l l'.
Proof.
  revert l'. induction l as [|x rest IH]; simpl; intros l' H.
  - injection H as <-. apply Permutation_refl.
  - destruct (sort_backwards comparefn rest) as [s|e]; simpl in H;
      [|discriminate].
    eapply Permutation_trans; [apply perm_skip, IH; reflexivity|].
    apply insert_sorted_perm; exact H.
Qed.

Lemma array_sort_perm l l' :
  array_sort comparefn l = Ok l' -> Permutation l l'.
Proof.
  intros H. destruct (array_sort_backwards l l' H) as (r & Hr & ->).
  eapply Permutation_trans; [apply Permutation_rev|].
  eapply Permutation_trans; [apply sort_backwards_perm; exact Hr|].
  apply Permutation_rev.
Qed.

(** On elements where the comparator does not raise and is given by a
    pure function [c]. *)
Variable good : A -> Prop.
Variable c : A -> A -> Z.
Hypothesis agree :
  forall a b, good a -> good b -> comparefn a b = Ok (c a b).

Lemma insert_sorted_good x l :
  good x -> Forall good l ->
  exists l', insert_sorted comparefn x l = Ok l'.
Proof.
  intros Hx Hl. induction Hl as [|y rest Hy Hrest IH]; simpl.
  - eauto.
  - rewrite (agree x y Hx Hy); simpl.
    destruct (c x y <? 0)%Z; [|eauto].
    destruct IH as [l'' ->]; simpl; eauto.
Qed.

Lemma sort_backwards_good l :
  Forall good l -> exists l', sort_backwards comparefn l = Ok l'.
Proof.
  intros Hl. induction Hl as [|x rest Hx Hrest IH]; simpl.
  - eauto.
  - destruct IH as [s Hs]. rewrite Hs; simpl.
    apply insert_sorted_good; [exact Hx|].
    eapply Permutation_Forall; [apply sort_backwards_perm; exact Hs|exact Hrest].
Qed.

Lemma array_sort_good l :
  Forall good l -> exists l', array_sort comparefn l = Ok l'.
Proof.
  intros Hl. unfold array_sort.
  destruct (sort_backwards_good (rev l) (Forall_rev Hl)) as [r ->].
  simpl. eauto.
Qed.

Hypothesis c_total : forall a b, (0 <= c a b)%Z -> (c b a <= 0)%Z.
Hypothesis c_trans :
  forall a b d, (c a b <= 0)%Z -> (c b d <= 0)%Z -> (c a d <= 0)%Z.

Lemma insert_sorted_sorted x l l' :
  good x -> Forall good l -> StronglySorted (fun a b => (c b a <= 0)%Z) l ->
  insert_sorted comparefn x l = Ok l' -> StronglySorted (fun a b => (c b a <= 0)%Z) l'.
Proof.
  intros Hx Hl Hs. revert l'.
  induction Hs as [|y rest Hs IH Hall]; simpl; intros l' H.
  - injection H as <-. constructor; constructor.
  - inversion Hl as [|? ? Hy Hrest]; subst.
    rewrite (agree x y Hx Hy) in H; simpl in H.
    destruct (Z.ltb_spec (c x y) 0) as [Hlt|Hge].
    + destruct (insert_sorted comparefn x rest) as [l''|e] eqn:E;
        simpl in H; [|discriminate].
      injection H as <-. constructor.
      * apply IH; [exact Hrest|reflexivity].
      * eapply Permutation_Forall;
          [apply insert_sorted_perm; exact E|].
        constructor; [lia|exact Hall].
    + injection H as <-. constructor.
      * constructor; assumption.
      * constructor; [apply c_total; exact Hge|].
        eapply Forall_impl; [|exact Hall].
        intros z Hz. simpl in *.
        eapply c_trans; [exact Hz|apply c_total; exact Hge].
Qed.

Lemma sort_backwards_sorted l l' :
  Forall good l -> sort_backwards comparefn l = Ok l' -> StronglySorted (fun a b => (c b a <= 0)%Z) l'.
Proof.
  intros Hl. revert l'.
  induction Hl as [|x rest Hx Hrest IH]; simpl; intros l' H.
  - injection H as <-. constructor.
  - destruct (sort_backwards comparefn rest) as [s|e] eqn:E; simpl in H;
      [|discriminate].
    eapply insert_sorted_sorted; [exact Hx| |apply IH; reflexivity|exact H].
    eapply Permutation_Forall;
      [apply sort_backwards_perm; exact E|exact Hrest].
Qed.

Lemma array_sort_sorted l l' :
  Forall good l -> array_sort comparefn l = Ok l' -> StronglySorted (fun a b => (c a b <= 0)%Z) l'.
Proof.
  intros Hl H. destruct (array_sort_backwards l l' H) as (r & Hr & ->).
  apply sorted_rev.
  exact (sort_backwards_sorted (rev l) r (Forall_rev Hl) Hr).
Qed.

(** Elements that are in order already are left as they are. *)
Lemma sort_backwards_of_sorted l :
  (forall a b, (c a b <= 0)%Z -> (0 <= c b a)%Z) ->
  Forall good l -> StronglySorted (fun a b => (c b a <= 0)%Z) l -> sort_backwards comparefn l = Ok l.
Proof.
  intros Hanti Hgood Hs.
  induction Hs as [|x rest Hs IH Hall]; [reflexivity|].
  inversion Hgood as [|? ? Hx Hrest]; subst.
  simpl. rewrite (IH Hrest). simpl.
  destruct rest as [|y rest']; [reflexivity|].
  inversion Hrest as [|? ? Hy _]; subst.
  inversion Hall as [|? ? Hxy _]; subst.
  simpl. rewrite (agree x y Hx Hy). simpl.
  destruct (Z.ltb_spec (c x y) 0) as [Hlt|Hge]; [|reflexivity].
  apply Hanti in Hxy. lia.
Qed.

(** Stability: the elements selected by [p], which compare equal to one
    another, keep their order. *)
Variable p : A -> bool.
Hypothesis p_equal :
  forall a b, p a = true -> p b = true -> c a b = 0%Z.



End SortFacts.

Lemma sorted_nth_error {A} (R : A -> A -> Prop) (l : list A) :
  StronglySorted R l ->
  forall i j a b, i < j ->
    nth_error l i = Some a -> nth_error l j = Some b -> R a b.
Proof.
  induction 1 as [|x rest Hs IH Hall]; intros i j a b Hij Hi Hj.
  - destruct i; discriminate.
  - destruct j as [|j]; [lia|]. simpl in Hj.
    destruct i as [|i]; simpl in Hi.
    + injection Hi as <-.
      rewrite Forall_forall in Hall. apply Hall.
      eapply nth_error_In; exact Hj.
    + eapply IH; [|exact Hi|exact Hj]. lia.
Qed.

Lemma array_join_throws (f : value -> result string) (e : exn)
    (l : list value) :
  array_join f l = Throw e -> Exists (fun x => f x = Throw e) l.
Proof.
  induction l as [|x rest IHl]; [discriminate|].
  simpl. destruct (match x with VNull => Ok EmptyString | _ => f x end)
    as [s|e0] eqn:Ex; simpl.
  - destruct rest as [|y rest']; [discriminate|].
    destruct (array_join f (y :: rest')) as [r|e1]; [discriminate|].
    simpl. intros H. apply Exists_cons_tl, IHl. exact H.
  - intros H. injection H as <-. apply Exists_cons_hd.
    destruct x; try discriminate; exact Ex.
Qed.

(** Induction on a value and, for an array, on its elements. *)
Lemma value_elements_ind (Q : value -> Prop) :
  Q VNull -> (forall b, Q (VBool b)) -> (forall repr, Q (VNum repr)) ->
  (forall s, Q (VStr s)) ->
  (forall elements, Forall Q elements -> Q (VSeq elements)) ->
  (forall elements props, Forall Q elements -> Q (VSeqWith elements props)) ->
  (forall fields, Q (VMap fields)) ->
  forall v, Q v.
Proof.
  intros HNull HBool HNum HStr HSeq HSeqWith HMap.
  fix IH 1. intros v.
  destruct v as [|b|repr|s|elements|elements props|fields];
    [exact HNull|apply HBool|apply HNum|apply HStr| | |apply HMap].
  - apply HSeq. induction elements as [|x rest IHl]; constructor;
      [apply IH|exact IHl].
  - apply HSeqWith. induction elements as [|x rest IHl]; constructor;
      [apply IH|exact IHl].
Qed.

(** String conversion raises nothing but a TypeError. *)
Lemma to_js_string_throws (v : value) (e : exn) :
  to_js_string v = Throw e -> e = TypeError.
Proof.
  induction v as [|b|repr|s|elements IHl|elements props IHl|fields]
    using value_elements_ind; simpl; try discriminate.
  - destruct b; discriminate.
  - intros H. apply array_join_throws in H.
    rewrite Forall_forall in IHl. apply Exists_exists in H.
    destruct H as (x & Hin & Hx). exact (IHl x Hin Hx).
  - destruct (has_key "toString" props);
      [intros H; injection H as <-; reflexivity|].
    destruct (has_key "join" props); [discriminate|].
    intros H. apply array_join_throws in H.
    rewrite Forall_forall in IHl. apply Exists_exists in H.
    destruct H as (x & Hin & Hx). exact (IHl x Hin Hx).
  - destruct (has_key "toString" fields); [|discriminate].
    intros H; injection H as <-; reflexivity.
Qed.

Lemma js_string_of_throws (o : option value) (e : exn) :
  js_string_of o = Throw e -> e = TypeError.
Proof.
  destruct o as [v|]; simpl; [apply to_js_string_throws|discriminate].
Qed.

Section BuilderFacts.
Variable P : platform.

(** What loading one file does, case by case. *)
Lemma load_mode_cases file (d : directory) :
  load_mode P file (Some d) =
  match lookup file d with
  | Some (File c) =>
      match yaml_parse P c with
      | None => (Throw (parse_error P c), Some d, [ReadFile file])
      | Some v =>
          match get_prop v "name" with
          | Throw e => (Throw e, Some d, [ReadFile file])
          | Ok n =>
              match js_string_of n with
              | Ok text =>
                  (Ok v, Some d,
                   [ReadFile file; Logged ("Added: " ++ text)])
              | Throw e => (Throw e, Some d, [ReadFile file])
              end
          end
      end
  | Some Dir => (Throw EISDIR, Some d, [])
  | Some Dangling => (Throw ENOENT, Some d, [])
  | None => (Throw ENOENT, Some d, [])
  end.
Proof.
  unfold_run. destruct (lookup file d) as [[c| |]|]; try reflexivity.
  simpl. destruct (yaml_parse P c) as [v|]; [|reflexivity].
  destruct (get_prop v "name") as [n|e]; [|reflexivity].
  destruct (js_string_of n) as [text|e]; reflexivity.
Qed.

(** Loading a mode never changes the directory. *)
Lemma load_mode_final file w : final (load_mode P file w) = w.
Proof.
  destruct w as [d|]; [|reflexivity].
  rewrite load_mode_cases.
  destruct (lookup file d) as [[c| |]|]; try reflexivity.
  destruct (yaml_parse P c) as [v|]; [|reflexivity].
  destruct (get_prop v "name") as [n|e]; [|reflexivity].
  destruct (js_string_of n) as [text|e]; reflexivity.
Qed.

Lemma array_map_load_final files w :
  final (array_map (load_mode P) files w) = w.
Proof.
  revert w. induction files as [|f rest IH]; intros w; [reflexivity|].
  simpl. unfold bind.
  pose proof (load_mode_final f w) as Hf.
  destruct (load_mode P f w) as [[[v|e] w1] ev1]; unfold final in Hf;
    simpl in Hf; subst w1; [|reflexivity].
  pose proof (IH w) as Hr.
  destruct (array_map (load_mode P) rest w) as [[[vs|e] w2] ev2];
    unfold final in Hr; simpl in Hr; subst w2; reflexivity.
Qed.

Lemma items_final w : final (items P w) = w.
Proof.
  unfold items, bind, readdirSync.
  destruct w as [d|]; [|reflexivity].
  pose proof (array_map_load_final (filter selected (map fst d)) (Some d)) as H.
  destruct (array_map (load_mode P) _ _) as [[[vs|e] w1] ev1];
    unfold final in H; simpl in H; subst w1; [|reflexivity].
  unfold lift. destruct (array_sort _ _); reflexivity.
Qed.

Lemma load_mode_shape file w :
  load_mode P file w =
  (outcome (load_mode P file w), w, events (load_mode P file w)).
Proof.
  pose proof (load_mode_final file w) as H. unfold final, outcome, events in *.
  destruct (load_mode P file w) as [[r w1] ev]; simpl in *; subst; reflexivity.
Qed.

Lemma array_map_load_shape files w :
  array_map (load_mode P) files w =
  (outcome (array_map (load_mode P) files w), w,
   events (array_map (load_mode P) files w)).
Proof.
  pose proof (array_map_load_final files w) as H.
  unfold final, outcome, events in *.
  destruct (array_map (load_mode P) files w) as [[r w1] ev]; simpl in *;
    subst; reflexivity.
Qed.

Lemma items_shape w :
  items P w = (outcome (items P w), w, events (items P w)).
Proof.
  pose proof (items_final w) as H. unfold final, outcome, events in *.
  destruct (items P w) as [[r w1] ev]; simpl in *; subst; reflexivity.
Qed.

Lemma get_prop_not_null v key : v <> VNull -> get_prop v key = Ok (prop_of v key).
Proof. destruct v; try reflexivity. congruence. Qed.

Lemma load_mode_ok file (d : directory) c v text :
  lookup file d = Some (File c) -> yaml_parse P c = Some v -> v <> VNull ->
  js_string_of (name_of v) = Ok text ->
  load_mode P file (Some d)
  = (Ok v, Some d, [ReadFile file; Logged ("Added: " ++ text)]).
Proof.
  intros Hl Hp Hv Hn. rewrite load_mode_cases, Hl, Hp.
  rewrite (get_prop_not_null v "name" Hv). fold (name_of v). rewrite Hn.
  reflexivity.
Qed.

Lemma load_mode_ok_inv file (d : directory) v :
  outcome (load_mode P file (Some d)) = Ok v ->
  exists c, lookup file d = Some (File c) /\ yaml_parse P c = Some v
            /\ v <> VNull
            /\ exists text, js_string_of (name_of v) = Ok text.
Proof.
  rewrite load_mode_cases.
  destruct (lookup file d) as [[c| |]|]; try discriminate.
  destruct (yaml_parse P c) as [v'|] eqn:Ep; try discriminate.
  destruct (get_prop v' "name") as [n|e] eqn:En; try discriminate.
  destruct (js_string_of n) as [text|e] eqn:Et; try discriminate.
  unfold outcome; simpl. intros H; injection H as <-.
  assert (Hv : v' <> VNull) by (intros ->; discriminate).
  exists c. repeat split; try assumption.
  rewrite (get_prop_not_null v' "name" Hv) in En. injection En as <-.
  exists text. exact Et.
Qed.

Lemma load_mode_events file w :
  Forall (fun e => e = ReadFile file \/ exists line, e = Logged line)
    (events (load_mode P file w)).
Proof.
  destruct w as [d|]; [|constructor].
  rewrite load_mode_cases.
  destruct (lookup file d) as [[c| |]|]; try apply Forall_nil.
  destruct (yaml_parse P c) as [v|];
    [destruct (get_prop v "name") as [n|e];
     [destruct (js_string_of n) as [text|e]|]|];
    unfold events; simpl;
    repeat apply Forall_cons; try apply Forall_nil; eauto.
Qed.

Lemma load_mode_ext file (d1 d2 : directory) :
  lookup file d1 = lookup file d2 ->
  outcome (load_mode P file (Some d1)) = outcome (load_mode P file (Some d2))
  /\ events (load_mode P file (Some d1)) = events (load_mode P file (Some d2)).
Proof.
  intros H. rewrite !load_mode_cases, H.
  destruct (lookup file d2) as [[c| |]|]; auto.
  destruct (yaml_parse P c) as [v|]; auto.
  destruct (get_prop v "name") as [n|e]; auto.
  destruct (js_string_of n) as [text|e]; auto.
Qed.

Lemma array_map_cons file rest w :
  array_map (load_mode P) (file :: rest) w =
  match outcome (load_mode P file w) with
  | Ok v =>
      match outcome (array_map (load_mode P) rest w) with
      | Ok vs =>
          (Ok (v :: vs), w,
           events (load_mode P file w)
           ++ events (array_map (load_mode P) rest w))
      | Throw e =>
          (Throw e, w,
           events (load_mode P file w)
           ++ events (array_map (load_mode P) rest w))
      end
  | Throw e => (Throw e, w, events (load_mode P file w))
  end.
Proof.
  simpl. unfold bind at 1. rewrite (load_mode_shape file w) at 1.
  destruct (outcome (load_mode P file w)) as [v|e]; [|reflexivity].
  unfold bind. rewrite (array_map_load_shape rest w) at 1.
  destruct (outcome (array_map (load_mode P) rest w)) as [vs|e];
    unfold ret; rewrite ?app_nil_r; reflexivity.
Qed.

Lemma array_map_ext files (d1 d2 : directory) :
  (forall f, In f files -> lookup f d1 = lookup f d2) ->
  outcome (array_map (load_mode P) files (Some d1))
  = outcome (array_map (load_mode P) files (Some d2))
  /\ events (array_map (load_mode P) files (Some d1))
     = events (array_map (load_mode P) files (Some d2)).
Proof.
  induction files as [|f rest IH]; intros H; [split; reflexivity|].
  rewrite !array_map_cons.
  destruct (load_mode_ext f d1 d2) as [Ho He]; [apply H; left; reflexivity|].
  destruct IH as [IHo IHe]; [intros g Hg; apply H; right; exact Hg|].
  rewrite Ho, He, IHo, IHe.
  destruct (outcome (load_mode P f (Some d2))) as [v|e];
    [|split; reflexivity].
  destruct (outcome (array_map (load_mode P) rest (Some d2))) as [vs|e];
    split; reflexivity.
Qed.

(** Every loaded mode is the parse of a file that was listed. *)
Lemma array_map_ok_inv files (d : directory) vs :
  outcome (array_map (load_mode P) files (Some d)) = Ok vs ->
  Forall2 (loads_to P d) files vs.
Proof.
  revert vs. induction files as [|f rest IH]; intros vs H.
  - injection H as <-. constructor.
  - rewrite array_map_cons in H.
    destruct (outcome (load_mode P f (Some d))) as [v|e] eqn:Ef;
      [|discriminate].
    destruct (outcome (array_map (load_mode P) rest (Some d))) as [vs'|e];
      [|discriminate].
    injection H as <-. constructor; [|apply IH; reflexivity].
    apply load_mode_ok_inv; exact Ef.
Qed.

Lemma load_mode_loads (d : directory) f v :
  loads_to P d f v ->
  load_mode P f (Some d) = (Ok v, Some d, [ReadFile f; Logged (added v)]).
Proof.
  intros (c & Hl & Hp & Hv & text & Hn).
  rewrite (load_mode_ok f d c v text Hl Hp Hv Hn).
  unfold added. rewrite Hn. reflexivity.
Qed.

Lemma load_mode_fails (d : directory) f e ev :
  load_fails P d f e ev -> load_mode P f (Some d) = (Throw e, Some d, ev).
Proof.
  intros [Hl|Hl|c Hl Hp|c Hl Hp|c v e' Hl Hp Hv Hn];
    rewrite load_mode_cases, Hl; try rewrite Hp; try reflexivity.
  rewrite (get_prop_not_null v "name" Hv). fold (name_of v). rewrite Hn.
  reflexivity.
Qed.

Lemma array_map_trace (d : directory) files vs :
  Forall2 (loads_to P d) files vs ->
  array_map (load_mode P) files (Some d)
  = (Ok vs, Some d, load_trace files vs).
Proof.
  induction 1 as [|f v files vs Hf _ IH]; [reflexivity|].
  rewrite array_map_cons, (load_mode_loads d f v Hf), IH. reflexivity.
Qed.

Lemma array_map_stops (d : directory) pre f post vs e ev :
  Forall2 (loads_to P d) pre vs ->
  load_fails P d f e ev ->
  array_map (load_mode P) (pre ++ f :: post) (Some d)
  = (Throw e, Some d, load_trace pre vs ++ ev).
Proof.
  intros Hpre Hf. induction Hpre as [|g v pre vs Hg _ IH].
  - simpl app. rewrite array_map_cons, (load_mode_fails d f e ev Hf).
    reflexivity.
  - simpl app. rewrite array_map_cons, (load_mode_loads d g v Hg), IH.
    reflexivity.
Qed.

Lemma array_map_events files w :
  Forall (fun e => (exists f, In f files /\ e = ReadFile f)
                   \/ exists line, e = Logged line)
    (events (array_map (load_mode P) files w)).
Proof.
  induction files as [|f rest IH]; [constructor|].
  assert (Hf : Forall (fun e => (exists g, In g (f :: rest) /\ e = ReadFile g)
                                \/ exists line, e = Logged line)
                 (events (load_mode P f w))).
  { eapply Forall_impl; [|apply load_mode_events].
    intros e [->|H]; [left; exists f; split; [left|]; reflexivity|right; exact H]. }
  assert (Hr : Forall (fun e => (exists g, In g (f :: rest) /\ e = ReadFile g)
                                \/ exists line, e = Logged line)
                 (events (array_map (load_mode P) rest w))).
  { eapply Forall_impl; [|exact IH].
    intros e [(g & Hg & ->)|H]; [left; exists g; split; [right; exact Hg|reflexivity]
                                |right; exact H]. }
  rewrite array_map_cons.
  destruct (outcome (load_mode P f w)) as [v|e]; [|exact Hf].
  destruct (outcome (array_map (load_mode P) rest w)) as [vs|e];
    unfold events at 1; simpl; apply Forall_app; split; assumption.
Qed.

(** The run of [items], in terms of the loading of the selected files. *)
Lemma items_run (d : directory) :
  items P (Some d) =
  match outcome (array_map (load_mode P) (inputs d) (Some d)) with
  | Ok vs =>
      (array_sort (compare_ids P) vs, Some d,
       Listed :: events (array_map (load_mode P) (inputs d) (Some d)))
  | Throw e =>
      (Throw e, Some d,
       Listed :: events (array_map (load_mode P) (inputs d) (Some d)))
  end.
Proof.
  unfold items, bind, readdirSync. fold (inputs d).
  rewrite (array_map_load_shape (inputs d) (Some d)) at 1.
  destruct (outcome (array_map (load_mode P) (inputs d) (Some d))) as [vs|e];
    [|reflexivity].
  unfold lift. rewrite app_nil_r. reflexivity.
Qed.

Lemma items_ext (d1 d2 : directory) :
  inputs d1 = inputs d2 ->
  (forall f, In f (inputs d1) -> lookup f d1 = lookup f d2) ->
  outcome (items P (Some d1)) = outcome (items P (Some d2))
  /\ events (items P (Some d1)) = events (items P (Some d2)).
Proof.
  intros Hi Hl. rewrite !items_run.
  destruct (array_map_ext (inputs d1) d1 d2 Hl) as [Ho He].
  rewrite <- Hi, <- Ho, <- He.
  destruct (outcome (array_map (load_mode P) (inputs d1) (Some d1)));
    split; reflexivity.
Qed.

(** The run of the whole script, in terms of [items]. *)
Lemma main_run (d : directory) :
  main P (Some d) =
  match outcome (items P (Some d)) with
  | Ok its =>
      match lookup marketplace d with
      | Some Dir => (Throw EISDIR, Some d, events (items P (Some d)))
      | _ =>
          (Ok tt, Some (store marketplace (output P its) d),
           events (items P (Some d))
           ++ [Wrote marketplace (output P its); Logged (summary its)])
      end
  | Throw e => (Throw e, Some d, events (items P (Some d)))
  end.
Proof.
  unfold main, bind. rewrite (items_shape (Some d)) at 1.
  destruct (outcome (items P (Some d))) as [its|e]; [|reflexivity].
  unfold writeFileSync, console_log.
  destruct (lookup marketplace d) as [[c| |]|]; simpl;
    rewrite ?app_nil_r; reflexivity.
Qed.

Lemma main_missing : main P None = (Throw ENOENT, None, []).
Proof. reflexivity. Qed.

Lemma loads_scanned (d : directory) files vs :
  Forall2 (loads_to P d) files vs ->
  Forall2 (fun f v => exists c, lookup f d = Some (File c)
                                /\ yaml_parse P c = Some v) files vs.
Proof.
  intros H. eapply Forall2_impl; [|exact H].
  intros f v (c & Hl & Hp & _); eauto.
Qed.

Lemma scanned_unique (d : directory) vs vs' :
  scanned P d vs -> scanned P d vs' -> vs = vs'.
Proof.
  unfold scanned. generalize (inputs d) as files. intros files H. revert vs'.
  induction H as [|f v files vs (c & Hl & Hp) _ IH]; intros vs' H';
    inversion H' as [|? v' ? vs'' (c' & Hl' & Hp') Hrest]; subst;
    [reflexivity|].
  f_equal; [congruence|apply IH; exact Hrest].
Qed.

Lemma scanned_loaded (d : directory) vs :
  Forall2 (loads_to P d) (inputs d) vs ->
  outcome (array_map (load_mode P) (inputs d) (Some d)) = Ok vs.
Proof.
  intros H. rewrite (array_map_trace d _ _ H). reflexivity.
Qed.

Lemma loaded_scanned (d : directory) vs :
  outcome (array_map (load_mode P) (inputs d) (Some d)) = Ok vs ->
  scanned P d vs.
Proof.
  intros H. apply array_map_ok_inv in H. unfold scanned.
  apply loads_scanned; exact H.
Qed.

(** When [items] evaluates, the scanned entries are the loaded ones. *)
Lemma items_ok_loads (d : directory) vs its :
  scanned P d vs ->
  outcome (items P (Some d)) = Ok its ->
  Forall2 (loads_to P d) (inputs d) vs
  /\ array_sort (compare_ids P) vs = Ok its.
Proof.
  intros Hs Hitems. rewrite items_run in Hitems.
  destruct (outcome (array_map (load_mode P) (inputs d) (Some d)))
    as [vs'|e] eqn:E; [|discriminate].
  pose proof (loaded_scanned d vs' E) as Hs'.
  rewrite (scanned_unique d vs vs' Hs Hs').
  split; [apply array_map_ok_inv; exact E|exact Hitems].
Qed.

Lemma items_no_write w :
  Forall (fun e => is_write e = false) (events (items P w)).
Proof.
  destruct w as [d|]; [|constructor].
  rewrite items_run.
  assert (H : Forall (fun e => is_write e = false)
                (Listed :: events (array_map (load_mode P) (inputs d) (Some d)))).
  { constructor; [reflexivity|].
    eapply Forall_impl; [|apply array_map_events].
    intros e [(f & _ & ->)|(line & ->)]; reflexivity. }
  destruct (outcome (array_map (load_mode P) (inputs d) (Some d)));
    exact H.
Qed.

(** A selected file that does not parse, or parses to [null], makes
    [items] raise. *)
Lemma load_failure_aborts (d : directory) f c :
  In f (inputs d) -> lookup f d = Some (File c) ->
  yaml_parse P c = None \/ yaml_parse P c = Some VNull ->
  exists e, outcome (items P (Some d)) = Throw e.
Proof.
  intros Hin Hl Hp. rewrite items_run.
  destruct (outcome (array_map (load_mode P) (inputs d) (Some d)))
    as [vs|e] eqn:E; [|exists e; reflexivity].
  exfalso. apply array_map_ok_inv in E.
  revert Hin E. generalize (inputs d) as files. intros files Hin E.
  revert Hin. induction E as [|g v fs vs' (c' & Hl' & Hp' & Hv & _) _ IH];
    intros Hin; [destruct Hin|].
  destruct Hin as [Heq|Hin]; auto.
  subst g. rewrite Hl in Hl'. injection Hl' as <-.
  destruct Hp as [Hp|Hp]; congruence.
Qed.

(** The parses of the selected files, none of them [null], either all
    load or make the loading raise a TypeError. *)
Lemma scanned_load_cases (d : directory) vs :
  scanned P d vs -> Forall (fun v => v <> VNull) vs ->
  Forall2 (loads_to P d) (inputs d) vs
  \/ outcome (array_map (load_mode P) (inputs d) (Some d)) = Throw TypeError.
Proof.
  unfold scanned. generalize (inputs d) as files. intros files H Hnn.
  induction H as [|f v files vs (c & Hl & Hp) _ IH]; [left; constructor|].
  inversion Hnn as [|? ? Hv Hrest]; subst.
  destruct (js_string_of (name_of v)) as [text|e] eqn:En.
  - assert (Hf : loads_to P d f v) by (exists c; eauto 6).
    destruct (IH Hrest) as [Hall|Hthrow].
    + left. constructor; assumption.
    + right. rewrite array_map_cons, (load_mode_loads d f v Hf).
      unfold outcome at 1. simpl. rewrite Hthrow. reflexivity.
  - right. rewrite array_map_cons.
    rewrite (load_mode_fails d f e [ReadFile f]
               (fails_name P d f c v e Hl Hp Hv En)).
    unfold outcome; simpl. f_equal. eapply js_string_of_throws; exact En.
Qed.

Lemma main_abort (d : directory) e :
  outcome (items P (Some d)) = Throw e ->
  main P (Some d) = (Throw e, Some d, events (items P (Some d))).
Proof. intros H. rewrite main_run, H. reflexivity. Qed.
End BuilderFacts.

(** ** The comparator on modes that carry a string [id] *)


Lemma compare_ids_agree (P : platform) (a b : value) :
  has_string_id a -> has_string_id b ->
  compare_ids P a b = Ok (localeCompare P (id_str a) (id_str b)).
Proof.
  intros [sa Ha] [sb Hb]. unfold compare_ids. rewrite Ha; simpl.
  rewrite Hb; simpl. unfold id_str.
  assert (Hpa : prop_of a "id" = Some (VStr sa))
    by (destruct a; simpl in *; try discriminate; congruence).
  assert (Hpb : prop_of b "id" = Some (VStr sb))
    by (destruct b; simpl in *; try discriminate; congruence).
  rewrite Hpa, Hpb. reflexivity.
Qed.

Lemma consistent_total cmp : consistent cmp ->
  forall a b : string, (0 <= cmp a b)%Z -> (cmp b a <= 0)%Z.
Proof.
  intros H a b Hab.
  pose proof (cmp_antisym cmp H a b). lia.
Qed.

Lemma consistent_anti cmp : consistent cmp ->
  forall a b : string, (cmp a b <= 0)%Z -> (0 <= cmp b a)%Z.
Proof.
  intros H a b Hab.
  pose proof (cmp_antisym cmp H b a). lia.
Qed.

Module SampleFacts.
Import Sample.

Lemma by_code_consistent : consistent by_code.
Proof.
  assert (Hlt : forall a b, (by_code a b < 0)%Z <-> String_as_OT.lt a b).
  { intros a b. rewrite <- String_as_OT.cmp_lt. unfold by_code, String_as_OT.cmp.
    destruct (String.compare a b); split; intros H; (lia || congruence). }
  assert (Heq : forall a b, by_code a b = 0%Z <-> a = b).
  { intros a b. rewrite <- String_as_OT.cmp_eq. unfold by_code, String_as_OT.cmp.
    destruct (String.compare a b); split; intros H; (lia || congruence). }
  assert (Hanti : forall a b, (by_code a b < 0)%Z <-> (0 < by_code b a)%Z).
  { intros a b. unfold by_code. rewrite (String.compare_antisym a b).
    destruct (String.compare b a); simpl; lia. }
  constructor.
  - intros a. apply Heq. reflexivity.
  - exact Hanti.
  - intros a b c Hab Hbc.
    assert (Cab : (by_code a b < 0)%Z \/ by_code a b = 0%Z) by lia.
    assert (Cbc : (by_code b c < 0)%Z \/ by_code b c = 0%Z) by lia.
    destruct Cab as [Cab|Cab], Cbc as [Cbc|Cbc].
    + apply Hlt in Cab, Cbc.
      pose proof (String_as_OT.lt_trans _ _ _ Cab Cbc) as Hac.
      apply Hlt in Hac. lia.
    + apply Heq in Cbc. subst c. lia.
    + apply Heq in Cab. subst b. lia.
    + apply Heq in Cab, Cbc. subst. lia.
Qed.
End SampleFacts.

(** ** The order of the entries *)

(** C4, as the code behaves: the order of the entries is not the
    lexicographic one.  Under a collation that, as that of the host does,
    puts [a] before [B], the files with ids [B] and [a] are written with
    [a] first, although [B] precedes [a] character by character. *)
Lemma collation_is_not_lexicographic :
  let d := [("upper.yaml", File Sample.mode_upper);
            ("a.yaml", File Sample.mode_a)] in
  let upper := Sample.flat [("id", "B"); ("name", "Upper")] in
  let a := Sample.flat [("id", "a"); ("name", "A")] in
  String.ltb (id_str upper) (id_str a) = true
  /\ outcome (items Sample.icu (Some d)) = Ok [a; upper]
  /\ manifest_of (final (main Sample.icu (Some d)))
     = Some (File (Sample.lines ["items:";
                                 "  - id: a"; "    name: A";
                                 "  - id: B"; "    name: Upper"])).
Proof. repeat split. Qed.

(** C4, amended.  In a document the builder emits, the entries, each
    carrying a string [id], are in ascending order of [id] under
    [localeCompare], the order the script sorts by, whatever consistent
    comparison that is: the document at the output location is
    the rendering of [items]; [items] is sorted; and whenever the [id] of
    one entry strictly precedes that of another, the first stands earlier
    in the output, whatever the order in which the directory listed
    their files. *)
Theorem manifest_sorted_by_id (P : platform) (d : directory) (its : list value) :
  consistent (localeCompare P) ->
  outcome (main P (Some d)) = Ok tt ->
  outcome (items P (Some d)) = Ok its ->
  Forall has_string_id its ->
  manifest_of (final (main P (Some d))) = Some (File (output P its))
  /\ StronglySorted (id_le P) its
  /\ (forall i j a b,
        nth_error its i = Some a -> nth_error its j = Some b ->
        id_lt P a b -> i < j).
Proof.
  intros Hc Hmain Hitems Hids.
  assert (Hsorted : StronglySorted (id_le P) its).
  { rewrite items_run in Hitems.
    destruct (outcome (array_map (load_mode P) (inputs d) (Some d)))
      as [vs|e]; [|discriminate].
    unfold outcome in Hitems; simpl in Hitems.
    eapply (array_sort_sorted (compare_ids P) has_string_id
              (fun a b => localeCompare P (id_str a) (id_str b))).
    - apply compare_ids_agree.
    - intros a b. apply consistent_total; exact Hc.
    - intros a b c. apply (cmp_trans _ Hc).
    - eapply Permutation_Forall;
        [apply Permutation_sym, (array_sort_perm _ _ _ Hitems)|exact Hids].
    - exact Hitems. }
  split; [|split].
  - rewrite main_run, Hitems in *.
    destruct (lookup marketplace d) as [[c| |]|]; try discriminate;
      unfold final, manifest_of; simpl; apply lookup_store_same.
  - exact Hsorted.
  - intros i j a b Hi Hj Hlt.
    destruct (Nat.lt_trichotomy i j) as [H|[H|H]]; [exact H| |].
    + subst j. rewrite Hi in Hj. injection Hj as <-.
      unfold id_lt in Hlt. rewrite (cmp_refl _ Hc) in Hlt. lia.
    + pose proof (sorted_nth_error _ _ Hsorted j i b a H Hj Hi) as Hle.
      unfold id_le in Hle. unfold id_lt in Hlt.
      apply (cmp_antisym _ Hc) in Hlt. lia.
Qed.

Lemma manifest_sorted_by_id_witness :
  let d := [("z.yaml", File Sample.mode_z); ("a.yaml", File Sample.mode_a)] in
  let its := [Sample.flat [("id", "a"); ("name", "A")];
              Sample.flat [("id", "z"); ("name", "Z")]] in
  manifest_of (final (main Sample.libs (Some d)))
  = Some (File (output Sample.libs its))
  /\ StronglySorted (id_le Sample.libs) its
  /\ (forall i j a b,
        nth_error its i = Some a -> nth_error its j = Some b ->
        id_lt Sample.libs a b -> i < j).
Proof.
  apply manifest_sorted_by_id.
  - exact SampleFacts.by_code_consistent.
  - reflexivity.
  - reflexivity.
  - repeat constructor; eexists; reflexivity.
Defined.

(** ** Entries that share an [id] *)




(** ** Input that cannot be used *)

(** C2, as the code behaves: a file that cannot be parsed is not skipped.
    Here the second of three mode files is malformed; the run ends with
    the parser's exception after reading it, the third file is never
    read, and nothing is written. *)
Lemma unparsable_file_stops_run :
  let d := [("a.yaml", File Sample.mode_a);
            ("bad.yaml", File Sample.unclosed);
            ("z.yaml", File Sample.mode_z)] in
  yaml_parse Sample.libs Sample.unclosed = None
  /\ main Sample.libs (Some d)
     = (Throw YAMLParseError, Some d,
        [Listed; ReadFile "a.yaml"; Logged "Added: A"; ReadFile "bad.yaml"]).
Proof. split; reflexivity. Qed.

(** C2, amended.  A selected file whose content [yaml.parse] rejects is
    fatal to the run: the run ends with an uncaught exception and no
    aggregate document is written from the remaining entries. *)
Theorem unparsable_file_is_fatal (P : platform) (d : directory) (f c : string) :
  In f (inputs d) ->
  lookup f d = Some (File c) ->
  yaml_parse P c = None ->
  (exists e, outcome (main P (Some d)) = Throw e)
  /\ Forall (fun ev => is_write ev = false) (events (main P (Some d))).
Proof.
  intros Hin Hl Hp.
  destruct (load_failure_aborts P d f c Hin Hl (or_introl Hp)) as [e He].
  rewrite (main_abort P d e He). split.
  - exists e; reflexivity.
  - apply items_no_write.
Qed.

Lemma unparsable_file_is_fatal_witness :
  let d := [("a.yaml", File Sample.mode_a);
            ("bad.yaml", File Sample.unclosed)] in
  (exists e, outcome (main Sample.libs (Some d)) = Throw e)
  /\ Forall (fun ev => is_write ev = false)
       (events (main Sample.libs (Some d))).
Proof.
  apply (unparsable_file_is_fatal Sample.libs _ "bad.yaml" Sample.unclosed).
  - right; left; reflexivity.
  - reflexivity.
  - reflexivity.
Defined.

(** C10, as the code behaves: a parsed value on which neither [name] nor
    [id] is available does not always abort the run.  Here the only mode
    file holds a mapping with neither key; [name] is logged as
    [undefined], the one-element array is sorted without a call of the
    comparator, and the document is written. *)
Lemma entry_without_fields_is_written :
  let d := [("solo.yaml", File Sample.no_fields)] in
  let v := Sample.flat [("description", "notes")] in
  yaml_parse Sample.libs Sample.no_fields = Some v
  /\ get_prop v "name" = Ok None
  /\ get_prop v "id" = Ok None
  /\ main Sample.libs (Some d)
     = (Ok tt,
        Some (d ++ [(marketplace,
                     File (Sample.lines ["items:"; "  - description: notes"]))]),
        [Listed; ReadFile "solo.yaml"; Logged "Added: undefined";
         Wrote marketplace (Sample.lines ["items:"; "  - description: notes"]);
         Logged (newline ++ "Generated marketplace.yaml with 1 modes")]).
Proof. repeat split; reflexivity. Qed.

(** C10, amended.  If a selected file fails to parse, or parses to
    [null] (an empty file), on which reading [name] raises, the run ends
    with an uncaught exception before the write is reached: no write is
    performed and the directory, with whatever document was at the
    output location, is left as it was. *)
Theorem broken_input_leaves_manifest (P : platform) (d : directory) (f c : string) :
  In f (inputs d) ->
  lookup f d = Some (File c) ->
  yaml_parse P c = None \/ yaml_parse P c = Some VNull ->
  (exists e, outcome (main P (Some d)) = Throw e)
  /\ Forall (fun ev => is_write ev = false) (events (main P (Some d)))
  /\ final (main P (Some d)) = Some d
  /\ manifest_of (final (main P (Some d))) = manifest_of (Some d).
Proof.
  intros Hin Hl Hp.
  destruct (load_failure_aborts P d f c Hin Hl Hp) as [e He].
  rewrite (main_abort P d e He). repeat split.
  - exists e; reflexivity.
  - apply items_no_write.
Qed.

Lemma broken_input_leaves_manifest_witness :
  let d := [("empty.yaml", File EmptyString);
            ("a.yaml", File Sample.mode_a);
            (marketplace, File (Sample.lines ["items: []"]))] in
  (exists e, outcome (main Sample.libs (Some d)) = Throw e)
  /\ Forall (fun ev => is_write ev = false)
       (events (main Sample.libs (Some d)))
  /\ final (main Sample.libs (Some d)) = Some d
  /\ manifest_of (final (main Sample.libs (Some d))) = manifest_of (Some d).
Proof.
  apply (broken_input_leaves_manifest Sample.libs _ "empty.yaml" EmptyString).
  - left; reflexivity.
  - reflexivity.
  - right; reflexivity.
Defined.

(** ** The output file and the inputs *)

Lemma selected_in_inputs (d : directory) f :
  In f (inputs d) -> selected f = true /\ In f (map fst d).
Proof.
  unfold inputs. rewrite filter_In. tauto.
Qed.

Lemma lookup_inputs_store (d : directory) data f :
  In f (inputs d) ->
  lookup f (store marketplace data d) = lookup f d.
Proof.
  intros Hin. apply lookup_store_other.
  apply selected_in_inputs in Hin. destruct Hin as [Hs _].
  apply selected_true_iff in Hs. tauto.
Qed.

Lemma items_store (P : platform) (d : directory) data :
  outcome (items P (Some (store marketplace data d))) = outcome (items P (Some d))
  /\ events (items P (Some (store marketplace data d)))
     = events (items P (Some d)).
Proof.
  apply items_ext.
  - apply inputs_store.
  - intros f Hin. rewrite inputs_store in Hin.
    apply lookup_inputs_store; exact Hin.
Qed.

(** C9.  The output file is never an input.  Every file a run reads has
    a name that ends in [.yaml] and is not [marketplace.yaml]; and every
    entry of [items] is the parse of a file of the directory with such a
    name. *)
Theorem manifest_is_not_an_input (P : platform) (w : world) :
  Forall read_selected (events (main P w))
  /\ match w, outcome (items P w) with
     | Some d, Ok its =>
         Forall (fun v => exists f c,
                     In f (map fst d)
                     /\ endsWith f ".yaml" = true /\ f <> marketplace
                     /\ lookup f d = Some (File c)
                     /\ yaml_parse P c = Some v) its
     | _, _ => True
     end.
Proof.
  destruct w as [d|]; [|split; [constructor|exact I]].
  assert (Hitems : Forall read_selected (events (items P (Some d)))).
  { rewrite items_run.
    assert (H : Forall read_selected
                  (Listed :: events (array_map (load_mode P) (inputs d) (Some d)))).
    { constructor; [exact I|].
      eapply Forall_impl; [|apply array_map_events].
      intros e [(f & Hf & ->)|(line & ->)]; [|exact I].
      apply selected_in_inputs in Hf. destruct Hf as [Hs _].
      apply selected_true_iff; exact Hs. }
    destruct (outcome (array_map (load_mode P) (inputs d) (Some d))); exact H. }
  split.
  - rewrite main_run.
    destruct (outcome (items P (Some d))) as [its|e]; [|exact Hitems].
    destruct (lookup marketplace d) as [[c| |]|]; try exact Hitems;
      unfold events at 1; simpl; apply Forall_app; split;
      try exact Hitems; repeat constructor.
  - destruct (outcome (items P (Some d))) as [its|e] eqn:E; [|exact I].
    rewrite items_run in E.
    destruct (outcome (array_map (load_mode P) (inputs d) (Some d)))
      as [vs|e] eqn:El; [|discriminate].
    unfold outcome in E; simpl in E.
    eapply Permutation_Forall; [apply (array_sort_perm _ _ _ E)|].
    apply array_map_ok_inv in El.
    assert (G : forall files,
               Forall2 (loads_to P d) files vs ->
               (forall f, In f files -> In f (inputs d)) ->
               Forall (fun v => exists f c,
                           In f (map fst d)
                           /\ endsWith f ".yaml" = true /\ f <> marketplace
                           /\ lookup f d = Some (File c)
                           /\ yaml_parse P c = Some v) vs).
    { clear. intros files H. induction H as [|f v fs vs' (c & Hl & Hp & _) _ IH];
        intros Hsub; constructor.
      - destruct (selected_in_inputs d f (Hsub f (or_introl eq_refl))) as [Hs Hin].
        apply selected_true_iff in Hs. destruct Hs as [Hy Hm].
        exists f, c; repeat split; assumption.
      - apply IH. intros g Hg. apply Hsub. right; exact Hg. }
    apply (G (inputs d) El). auto.
Qed.

(** ** Regeneration *)

(** C5.  A second run, started in the directory the first run left (the
    input files unchanged, the aggregate document of the first run now in
    place), ends as the first did, leaves the same directory and performs
    the same events, among them the write of the same output. *)
Theorem second_run_reproduces_first (P : platform) (w : world) :
  main P (final (main P w)) = main P w.
Proof.
  destruct w as [d|]; [|reflexivity].
  rewrite (main_run P d).
  destruct (outcome (items P (Some d))) as [its|e] eqn:E.
  - destruct (lookup marketplace d) as [[c| |]|] eqn:L; unfold final; simpl;
      try (rewrite main_run, E, L; reflexivity);
      rewrite main_run; destruct (items_store P d (output P its)) as [-> ->];
      rewrite E, lookup_store_same, store_store; reflexivity.
  - unfold final; simpl. rewrite main_run, E. reflexivity.
Qed.

(** C6.  The aggregate document is rebuilt from the input files alone.
    Two runs over the same directory that differ only in the content
    found at the output location end alike and perform the same events,
    in particular the same write of the same output, and when they
    complete they leave the same directory; the same holds against a run
    that finds no document at the output location at all. *)
Theorem previous_manifest_is_ignored (P : platform) (d : directory)
    (old1 old2 : string) :
  let run1 := main P (Some (store marketplace old1 d)) in
  let run2 := main P (Some (store marketplace old2 d)) in
  let fresh := main P (Some d) in
  outcome run1 = outcome run2
  /\ events run1 = events run2
  /\ (outcome run1 = Ok tt -> final run1 = final run2)
  /\ (lookup marketplace d = None ->
      outcome run1 = outcome fresh
      /\ events run1 = events fresh
      /\ (outcome run1 = Ok tt -> final run1 = final fresh)).
Proof.
  assert (H : forall old,
             main P (Some (store marketplace old d)) =
             match outcome (items P (Some d)) with
             | Ok its =>
                 (Ok tt, Some (store marketplace (output P its) d),
                  events (items P (Some d))
                  ++ [Wrote marketplace (output P its); Logged (summary its)])
             | Throw e =>
                 (Throw e, Some (store marketplace old d),
                  events (items P (Some d)))
             end).
  { intros old. rewrite main_run.
    destruct (items_store P d old) as [-> ->].
    destruct (outcome (items P (Some d))) as [its|e]; [|reflexivity].
    rewrite lookup_store_same, store_store. reflexivity. }
  cbv zeta. rewrite !H.
  split; [|split; [|split]].
  - destruct (outcome (items P (Some d))); reflexivity.
  - destruct (outcome (items P (Some d))); reflexivity.
  - destruct (outcome (items P (Some d))); [reflexivity|discriminate].
  - intros Hnone. rewrite main_run, Hnone.
    destruct (outcome (items P (Some d)));
      repeat split; try reflexivity; discriminate.
Qed.

Lemma previous_manifest_is_ignored_witness :
  let d := [("z.yaml", File Sample.mode_z); ("a.yaml", File Sample.mode_a)] in
  let run1 := main Sample.libs (Some (store marketplace "stale" d)) in
  let run2 := main Sample.libs (Some (store marketplace "other" d)) in
  let fresh := main Sample.libs (Some d) in
  (final run1 = final run2 /\ events run1 = events run2)
  /\ (final run1 = final fresh /\ events run1 = events fresh).
Proof.
  destruct (previous_manifest_is_ignored Sample.libs
              [("z.yaml", File Sample.mode_z); ("a.yaml", File Sample.mode_a)]
              "stale" "other") as (_ & He & Hf & Hfresh).
  destruct (Hfresh eq_refl) as (_ & He' & Hf').
  exact (conj (conj (Hf eq_refl) He) (conj (Hf' eq_refl) He')).
Defined.

(** ** The write of the aggregate document *)

Lemma filter_none {A} (p : A -> bool) (l : list A) :
  Forall (fun x => p x = false) l -> filter p l = [].
Proof.
  induction 1 as [|x rest Hx _ IH]; [reflexivity|].
  simpl. rewrite Hx. exact IH.
Qed.

Lemma write_reaches_bound data st :
  write_reaches data st ->
  match st with
  | Writing n => n <= String.length data
  | _ => True
  end.
Proof.
  induction 1 as [|st st' _ IH Hstep]; [exact I|].
  destruct Hstep; simpl in *; lia.
Qed.

Lemma write_reaches_all data n :
  n <= String.length data -> write_reaches data (Writing n).
Proof.
  intros Hn. destruct n as [|n].
  - eapply reach_step; [apply reach_start|apply step_open].
  - eapply reach_step.
    + eapply reach_step; [apply reach_start|apply step_open].
    + apply (step_chunk data 0 (S n)); simpl; lia.
Qed.

Lemma write_reaches_closed data : write_reaches data Closed.
Proof.
  eapply reach_step; [apply (write_reaches_all data (String.length data)); lia|].
  apply step_close.
Qed.

(** The write of the model is the step-by-step write run to its end. *)
Lemma writeFileSync_closed file data (d : directory) :
  lookup file d <> Some Dir ->
  writeFileSync file data (Some d)
  = (Ok tt, Some (during_write file data d Closed), [Wrote file data]).
Proof.
  intros H. unfold writeFileSync.
  destruct (lookup file d) as [[c| |]|]; try reflexivity. congruence.
Qed.

(** C3, as the code behaves: the overwrite is not atomic.  Here a
    previous document is in place and one mode is to be written; right
    after the truncating open of [writeFileSync] the file at the output
    location is empty, which is neither the old document nor the new
    one. *)
Lemma interrupted_write_truncates :
  let old := Sample.lines ["items: []"] in
  let d := [("a.yaml", File Sample.mode_a); (marketplace, File old)] in
  let new := Sample.lines ["items:"; "  - id: a"; "    name: A"] in
  manifest_of (final (main Sample.libs (Some d))) = Some (File new)
  /\ write_reaches new (Writing 0)
  /\ lookup marketplace (during_write marketplace new d (Writing 0))
     = Some (File EmptyString)
  /\ EmptyString <> old
  /\ EmptyString <> new.
Proof.
  repeat split; try reflexivity; try discriminate.
  eapply reach_step; [apply reach_start|apply step_open].
Qed.

(** C3, amended.  The builder overwrites the aggregate document in place,
    by the single [writeFileSync] of its run: the only write of a
    completed run is that of the new document to the output location,
    after which the file there is the complete new document; at every
    stage of that write the file is the old one, untouched, or holds
    the first bytes of the new document, none at all right after the
    open. *)
Theorem manifest_overwritten_in_place (P : platform) (d : directory)
    (its : list value) (st : write_stage) :
  outcome (items P (Some d)) = Ok its ->
  lookup marketplace d <> Some Dir ->
  write_reaches (output P its) st ->
  filter is_write (events (main P (Some d)))
  = [Wrote marketplace (output P its)]
  /\ write_reaches (output P its) Closed
  /\ final (main P (Some d))
     = Some (during_write marketplace (output P its) d Closed)
  /\ manifest_of (final (main P (Some d))) = Some (File (output P its))
  /\ (lookup marketplace (during_write marketplace (output P its) d st)
      = lookup marketplace d
      \/ exists n, n <= String.length (output P its)
           /\ lookup marketplace (during_write marketplace (output P its) d st)
              = Some (File (substring 0 n (output P its)))).
Proof.
  intros Hitems Hdir Hreach.
  assert (Hmain : main P (Some d)
                  = (Ok tt, Some (store marketplace (output P its) d),
                     events (items P (Some d))
                     ++ [Wrote marketplace (output P its); Logged (summary its)])).
  { rewrite main_run, Hitems.
    destruct (lookup marketplace d) as [[c| |]|]; try reflexivity; congruence. }
  rewrite Hmain. unfold final, events; simpl.
  split; [|split; [|split; [|split]]].
  - rewrite filter_app. simpl.
    pose proof (filter_none _ _ (items_no_write P (Some d))) as Hnone.
    unfold events in Hnone. rewrite Hnone. reflexivity.
  - apply write_reaches_closed.
  - reflexivity.
  - apply lookup_store_same.
  - destruct st as [|n|]; simpl.
    + left; reflexivity.
    + right. exists n. split; [|apply lookup_store_same].
      apply (write_reaches_bound _ _ Hreach).
    + right. exists (String.length (output P its)). split; [lia|].
      rewrite lookup_store_same. f_equal. f_equal.
      clear. induction (output P its) as [|a s IH]; [reflexivity|].
      simpl. rewrite <- IH at 1. reflexivity.
Qed.

Lemma manifest_overwritten_in_place_witness :
  let old := Sample.lines ["items: []"] in
  let d := [("a.yaml", File Sample.mode_a); (marketplace, File old)] in
  let its := [Sample.flat [("id", "a"); ("name", "A")]] in
  let new := output Sample.libs its in
  filter is_write (events (main Sample.libs (Some d)))
  = [Wrote marketplace new]
  /\ write_reaches new Closed
  /\ final (main Sample.libs (Some d))
     = Some (during_write marketplace new d Closed)
  /\ manifest_of (final (main Sample.libs (Some d))) = Some (File new)
  /\ (lookup marketplace (during_write marketplace new d (Writing 7))
      = lookup marketplace d
      \/ exists n, n <= String.length new
           /\ lookup marketplace (during_write marketplace new d (Writing 7))
              = Some (File (substring 0 n new))).
Proof.
  apply manifest_overwritten_in_place.
  - reflexivity.
  - discriminate.
  - apply write_reaches_all. vm_compute. lia.
Defined.

(** ** Re-applying the source metadata *)

Section Reinject.
Import UpdateSkills.

Lemma lookup_set_field key v (m : list (string * value)) :
  lookup key (set_field key v m) = Some v.
Proof.
  induction m as [|[k x] rest IH]; simpl.
  - rewrite String.eqb_refl; reflexivity.
  - destruct (String.eqb_spec k key) as [->|Hk]; simpl.
    + rewrite String.eqb_refl; reflexivity.
    + apply String.eqb_neq in Hk; rewrite Hk; exact IH.
Qed.

Lemma lookup_set_field_other key k v (m : list (string * value)) :
  k <> key -> lookup k (set_field key v m) = lookup k m.
Proof.
  intros Hk. induction m as [|[k' x] rest IH]; simpl.
  - destruct (String.eqb_spec key k) as [->|_]; [contradiction|reflexivity].
  - destruct (String.eqb_spec k' key) as [->|Hk']; simpl.
    + destruct (String.eqb_spec key k) as [->|_]; [contradiction|reflexivity].
    + destruct (String.eqb_spec k' k); [reflexivity|exact IH].
Qed.

Lemma set_field_twice key u v (m : list (string * value)) :
  set_field key v (set_field key u m) = set_field key v m.
Proof.
  induction m as [|[k x] rest IH]; simpl.
  - rewrite String.eqb_refl; reflexivity.
  - destruct (String.eqb k key) eqn:Ek; simpl; rewrite Ek; [reflexivity|].
    rewrite IH; reflexivity.
Qed.

Lemma set_prop_same o key v o' :
  set_prop o key v = Ok o' -> prop_of o' key = Some v.
Proof.
  destruct o; simpl; intros H; inversion H; subst; simpl;
    try apply lookup_set_field.
  rewrite String.eqb_refl; reflexivity.
Qed.

Lemma set_prop_other o key v o' k :
  set_prop o key v = Ok o' -> k <> key -> prop_of o' k = prop_of o k.
Proof.
  destruct o; simpl; intros H Hk; inversion H; subst; simpl;
    try (apply lookup_set_field_other; exact Hk).
  destruct (String.eqb_spec key k) as [->|_]; [contradiction|reflexivity].
Qed.

Lemma set_prop_object o key v :
  is_object o = true -> exists o', set_prop o key v = Ok o' /\ is_object o' = true.
Proof.
  destruct o; simpl; intros H; try discriminate; eexists; split; reflexivity.
Qed.

Lemma set_prop_scalar o key v :
  is_object o = false -> set_prop o key v = Throw TypeError.
Proof. destruct o; simpl; intros H; try discriminate; reflexivity. Qed.

Lemma get_prop_object o key :
  is_object o = true -> get_prop o key = Ok (prop_of o key).
Proof. destruct o; simpl; intros H; try discriminate; reflexivity. Qed.

(** The steps of [reinject] on a metadata that is an object. *)
Lemma reinject_metadata (skill : SkillInfo) (md : value) :
  is_object md = true ->
  exists md2,
    rbind (get_prop md "category") (fun category =>
    rbind (if negb (truthy_opt category) && truthy_opt (local_category skill)
           then match local_category skill with
                | Some c => set_prop md "category" c
                | None => Ok md
                end
           else Ok md) (fun md1 =>
    set_prop md1 "source" (source_object skill))) = Ok md2
    /\ is_object md2 = true
    /\ prop_of md2 "source" = Some (source_object skill)
    /\ prop_of md2 "category"
       = (if truthy_opt (prop_of md "category") then prop_of md "category"
          else if truthy_opt (local_category skill) then local_category skill
          else prop_of md "category")
    /\ (forall mf, md = VMap mf -> exists mf2, md2 = VMap mf2).
Proof.
  intros Hmd. rewrite (get_prop_object _ _ Hmd). simpl.
  assert (Hsrc : forall md1, is_object md1 = true ->
            (forall mf, md = VMap mf -> exists mf1, md1 = VMap mf1) ->
            forall cat, prop_of md1 "category" = cat ->
            exists md2, set_prop md1 "source" (source_object skill) = Ok md2
              /\ is_object md2 = true
              /\ prop_of md2 "source" = Some (source_object skill)
              /\ prop_of md2 "category" = cat
              /\ (forall mf, md = VMap mf -> exists mf2, md2 = VMap mf2)).
  { intros md1 H1 Hshape cat Hcat.
    destruct (set_prop_object md1 "source" (source_object skill) H1)
      as (md2 & E & O).
    exists md2. repeat split; try assumption.
    - eapply set_prop_same; exact E.
    - rewrite (set_prop_other _ _ _ _ "category" E) by discriminate.
      exact Hcat.
    - intros mf Hmf. destruct (Hshape mf Hmf) as (mf1 & ->).
      simpl in E. inversion E. eexists; reflexivity. }
  destruct (truthy_opt (prop_of md "category")) eqn:Tc; simpl.
  - apply Hsrc; [exact Hmd| intros mf ->; eexists; reflexivity |reflexivity].
  - destruct (truthy_opt (local_category skill)) eqn:Tl; simpl.
    + destruct (local_category skill) as [c|] eqn:Lc; [|discriminate].
      destruct (set_prop_object md "category" c Hmd) as (md1 & E & O).
      rewrite E. simpl. apply Hsrc.
      * exact O.
      * intros mf ->. simpl in E. inversion E. eexists; reflexivity.
      * eapply set_prop_same; exact E.
    + apply Hsrc; [exact Hmd| intros mf ->; eexists; reflexivity |reflexivity].
Qed.

(** The metadata [reinject] goes on with, once "Ensure metadata object
    exists" is passed. *)
Lemma reinject_unfold (skill : SkillInfo) (nf : value) :
  is_object nf = true ->
  reinject skill nf
  = let md := if truthy_opt (prop_of nf "metadata")
              then match prop_of nf "metadata" with
                   | Some m => m
                   | None => VMap []
                   end
              else VMap [] in
    rbind (rbind (get_prop md "category") (fun category =>
           rbind (if negb (truthy_opt category)
                     && truthy_opt (local_category skill)
                  then match local_category skill with
                       | Some c => set_prop md "category" c
                       | None => Ok md
                       end
                  else Ok md) (fun md1 =>
           set_prop md1 "source" (source_object skill))))
      (fun md2 => set_prop nf "metadata" md2).
Proof.
  intros Hnf. unfold reinject. rewrite (get_prop_object _ _ Hnf). simpl.
  destruct (truthy_opt (prop_of nf "metadata")) eqn:T; simpl.
  - rewrite (get_prop_object _ _ Hnf). simpl.
    destruct (prop_of nf "metadata") as [m|]; [|discriminate].
    destruct (get_prop m "category"); simpl; [|reflexivity].
    match goal with |- rbind ?x _ = _ => destruct x end; simpl; [|reflexivity].
    match goal with |- rbind ?x _ = _ => destruct x end; reflexivity.
  - destruct (set_prop_object nf "metadata" (VMap []) Hnf) as (nf1 & E & O).
    rewrite E. simpl. rewrite (get_prop_object _ _ O). simpl.
    rewrite (set_prop_same _ _ _ _ E). simpl.
    match goal with |- rbind ?x _ = _ => destruct x end; simpl; [|reflexivity].
    match goal with |- rbind ?x _ = _ => destruct x end; simpl; [|reflexivity].
    destruct nf; try discriminate; simpl in E; inversion E; subst; simpl;
      rewrite ?set_field_twice; reflexivity.
Qed.
Lemma reinject_ok (skill : SkillInfo) (nf : value) :
  is_object nf = true -> scalar_metadata nf = false ->
  exists md2 nf',
    reinject skill nf = Ok nf'
    /\ set_prop nf "metadata" md2 = Ok nf'
    /\ is_object md2 = true
    /\ prop_of md2 "source" = Some (source_object skill)
    /\ prop_of md2 "category"
       = (if truthy_opt (upstream_category nf) then upstream_category nf
          else if truthy_opt (local_category skill) then local_category skill
          else upstream_category nf)
    /\ (mapping_metadata nf = true -> exists mf2, md2 = VMap mf2).
Proof.
  intros Hnf Hsc. rewrite (reinject_unfold _ _ Hnf). cbv zeta.
  set (md := if truthy_opt (prop_of nf "metadata")
             then match prop_of nf "metadata" with
                  | Some m => m
                  | None => VMap []
                  end
             else VMap []).
  assert (Hmd : is_object md = true).
  { subst md. unfold scalar_metadata in Hsc.
    destruct (prop_of nf "metadata") as [m|]; simpl; [|reflexivity].
    simpl in Hsc. destruct (truthy m) eqn:T; [|reflexivity].
    destruct m; simpl in *; try discriminate; reflexivity. }
  assert (Hcat : prop_of md "category" = upstream_category nf).
  { subst md. unfold upstream_category.
    destruct (prop_of nf "metadata") as [m|]; simpl; [|reflexivity].
    destruct (truthy m); reflexivity. }
  assert (Hmap : mapping_metadata nf = true -> exists mf, md = VMap mf).
  { subst md. unfold mapping_metadata.
    destruct (prop_of nf "metadata") as [m|]; simpl;
      [|intros _; eexists; reflexivity].
    destruct m; simpl; intros H;
      try (apply negb_true_iff in H; rewrite H);
      try discriminate; eexists; reflexivity. }
  destruct (reinject_metadata skill md Hmd) as (md2 & E & O & S & C & Shape).
  rewrite E. simpl.
  destruct (set_prop_object nf "metadata" md2 Hnf) as (nf' & E' & _).
  exists md2, nf'. rewrite <- Hcat.
  repeat split; try assumption.
  intros H. destruct (Hmap H) as (mf & Hmf). exact (Shape mf Hmf).
Qed.

Lemma reinject_scalar (skill : SkillInfo) (nf : value) :
  is_object nf = false \/ scalar_metadata nf = true ->
  reinject skill nf = Throw TypeError.
Proof.
  intros [Hnf|Hsc].
  - unfold reinject. destruct nf; try discriminate; reflexivity.
  - assert (Hnf : is_object nf = true).
    { unfold scalar_metadata in Hsc.
      destruct nf; simpl in *; try discriminate; reflexivity. }
    rewrite (reinject_unfold _ _ Hnf). cbv zeta.
    unfold scalar_metadata in Hsc.
    destruct (prop_of nf "metadata") as [m|]; [|discriminate].
    apply andb_true_iff in Hsc. destruct Hsc as [T S].
    simpl. rewrite T.
    assert (Hset : forall key v, set_prop m key v = Throw TypeError).
    { intros key v. apply set_prop_scalar.
      destruct m; simpl in *; try discriminate; reflexivity. }
    assert (G : get_prop m "category" = Ok None).
    { destruct m; simpl in *; try discriminate; reflexivity. }
    rewrite G. simpl.
    destruct (truthy_opt (local_category skill)) eqn:Tl; simpl.
    + destruct (local_category skill); [|discriminate].
      rewrite Hset. reflexivity.
    + rewrite Hset. reflexivity.
Qed.

Lemma object_or_scalar (nf : value) :
  (is_object nf = true /\ scalar_metadata nf = false)
  \/ (is_object nf = false \/ scalar_metadata nf = true).
Proof.
  destruct (is_object nf), (scalar_metadata nf); auto.
Qed.




(** C8.  The source is not re-applied when upstream's metadata is a
    scalar.  Here the front matter of upstream has [metadata: legacy], a
    string, which "Ensure metadata object exists" lets through since it
    counts as true.  The skill has a local category, so the script
    assigns [category] on the string, which raises a TypeError: the
    update stops after the read, [SKILL.md] keeps the content copied from
    upstream and no [source] is written. *)
Lemma scalar_metadata_is_not_reinjected :
  let d : directory := [("SKILL.md", File Demo.scalar_upstream)] in
  matter Demo.gm Demo.scalar_upstream
  = Ok (VMap [("name", VStr "demo"); ("metadata", VStr "legacy")], "Body")
  /\ reinject Demo.demo
       (VMap [("name", VStr "demo"); ("metadata", VStr "legacy")])
     = Throw TypeError
  /\ reapply_source Demo.gm Demo.demo (Some d)
     = (Throw TypeError, Some d, [ReadFile "SKILL.md"]).
Proof. repeat split. Qed.



(** X17.  The update of the front matter raises exactly when the
    upstream front matter is no object ([null] or a scalar) or its
    metadata is a scalar that counts as true; what it raises is a
    TypeError. *)
Theorem reinject_raises_iff (skill : SkillInfo) (nf : value) :
  ((exists e, reinject skill nf = Throw e)
   <-> (is_object nf = false \/ scalar_metadata nf = true))
  /\ forall e, reinject skill nf = Throw e -> e = TypeError.
Proof.
  destruct (object_or_scalar nf) as [[Hnf Hsc]|Hbad].
  - destruct (reinject_ok skill nf Hnf Hsc) as (md2 & nf2 & E & _).
    split; [split|].
    + intros [e H]. rewrite E in H. discriminate.
    + intros [H|H]; congruence.
    + intros e H. rewrite E in H. discriminate.
  - pose proof (reinject_scalar skill nf Hbad) as E. split; [split|].
    + intros _. exact Hbad.
    + intros _. exists TypeError. exact E.
    + intros e H. rewrite E in H. inversion H. reflexivity.
Qed.

(** X18.  In the front matter handed to [matter.stringify], the category
    is upstream's where upstream sets one that counts as true; otherwise
    the local one where that counts as true; otherwise what upstream had,
    if anything. *)
Theorem reinjected_category (skill : SkillInfo) (nf nf' : value) :
  reinject skill nf = Ok nf' ->
  exists md,
    prop_of nf' "metadata" = Some md
    /\ prop_of md "category"
       = (if truthy_opt (upstream_category nf) then upstream_category nf
          else if truthy_opt (local_category skill) then local_category skill
          else upstream_category nf).
Proof.
  intros H. destruct (object_or_scalar nf) as [[Hnf Hsc]|Hbad].
  - destruct (reinject_ok skill nf Hnf Hsc)
      as (md2 & nf2 & E & Eset & _ & _ & C & _).
    rewrite E in H. inversion H; subst nf2.
    exists md2. split; [eapply set_prop_same; exact Eset|exact C].
  - rewrite (reinject_scalar skill nf Hbad) in H. discriminate.
Qed.

Lemma reinjected_category_witness :
  exists md,
    prop_of (VMap [("name", VStr "demo");
                   ("metadata",
                    VMap [("source", source_object Demo.demo);
                          ("category", VStr "tools")])]) "metadata"
    = Some md
    /\ prop_of md "category" = Some (VStr "tools").
Proof.
  exact (reinjected_category Demo.demo
           (VMap [("name", VStr "demo");
                  ("metadata",
                   VMap [("source", VMap [("repository", VStr "elsewhere");
                                          ("path", VStr "other")])])])
           _ eq_refl).
Defined.
End Reinject.

(** ** Further properties of the run *)

Lemma sorted_perm_unique {A} (R : A -> A -> Prop) (l1 l2 : list A) :
  (forall a b, In a l1 -> In b l1 -> R a b -> R b a -> a = b) ->
  StronglySorted R l1 -> StronglySorted R l2 -> Permutation l1 l2 ->
  l1 = l2.
Proof.
  intros Hanti Hs1. revert l2.
  induction Hs1 as [|x r1 Hs1 IH Hx]; intros l2 Hs2 Hperm.
  - apply Permutation_nil in Hperm. congruence.
  - destruct Hs2 as [|y r2 Hs2 Hy].
    + apply Permutation_sym, Permutation_nil in Hperm. discriminate.
    + assert (Hxy : x = y).
      { assert (Hx2 : In x (y :: r2))
          by (eapply Permutation_in; [exact Hperm|left; reflexivity]).
        assert (Hy1 : In y (x :: r1))
          by (eapply Permutation_in;
              [apply Permutation_sym; exact Hperm|left; reflexivity]).
        destruct Hx2 as [Hx2|Hx2]; [congruence|].
        destruct Hy1 as [Hy1|Hy1]; [congruence|].
        rewrite Forall_forall in Hx, Hy.
        apply Hanti; [left; reflexivity|right; exact Hy1|auto|auto]. }
      subst y. f_equal. apply IH.
      * intros a b Ha Hb. apply Hanti; right; assumption.
      * exact Hs2.
      * eapply Permutation_cons_inv; exact Hperm.
Qed.

(** X2.  When the selected files all load, to entries with string ids
    no two of which compare equal, the order of the output does not
    depend on the order of discovery: two directories whose loaded
    entries are the same up to order yield the same [items]. *)
Theorem discovery_order_is_irrelevant (P : platform) (d1 d2 : directory)
    (vs1 vs2 : list value) :
  consistent (localeCompare P) ->
  Forall2 (loads_to P d1) (inputs d1) vs1 ->
  Forall2 (loads_to P d2) (inputs d2) vs2 ->
  Permutation vs1 vs2 ->
  Forall has_string_id vs1 ->
  (forall a b, In a vs1 -> In b vs1 ->
     localeCompare P (id_str a) (id_str b) = 0%Z -> a = b) ->
  exists its,
    outcome (items P (Some d1)) = Ok its
    /\ outcome (items P (Some d2)) = Ok its
    /\ Permutation vs1 its.
Proof.
  intros Hc Hs1 Hs2 Hperm Hids1 Hdistinct.
  assert (Hids2 : Forall has_string_id vs2)
    by (eapply Permutation_Forall; eassumption).
  assert (Hrun : forall d vs, Forall2 (loads_to P d) (inputs d) vs ->
            Forall has_string_id vs ->
            exists its, outcome (items P (Some d)) = Ok its
                        /\ Permutation vs its
                        /\ StronglySorted (id_le P) its).
  { intros d vs Hs Hids.
    destruct (array_sort_good (compare_ids P) has_string_id
                (fun a b => localeCompare P (id_str a) (id_str b))
                (compare_ids_agree P) vs Hids) as [its Hsort].
    exists its. split; [|split].
    - rewrite items_run, (scanned_loaded P d vs Hs). exact Hsort.
    - apply (array_sort_perm _ _ _ Hsort).
    - eapply (array_sort_sorted (compare_ids P) has_string_id
                (fun a b => localeCompare P (id_str a) (id_str b))).
      + apply compare_ids_agree.
      + intros a b. apply consistent_total; exact Hc.
      + intros a b c. apply (cmp_trans _ Hc).
      + exact Hids.
      + exact Hsort. }
  destruct (Hrun d1 vs1 Hs1 Hids1) as (its1 & H1 & Hp1 & Hsorted1).
  destruct (Hrun d2 vs2 Hs2 Hids2) as (its2 & H2 & Hp2 & Hsorted2).
  assert (Heq : its1 = its2).
  { apply (sorted_perm_unique (id_le P)); try assumption.
    - intros a b Ha Hb Hab Hba.
      apply Hdistinct.
      + eapply Permutation_in; [apply Permutation_sym; exact Hp1|exact Ha].
      + eapply Permutation_in; [apply Permutation_sym; exact Hp1|exact Hb].
      + unfold id_le in *.
        pose proof (cmp_antisym _ Hc (id_str a) (id_str b)).
        pose proof (cmp_antisym _ Hc (id_str b) (id_str a)). lia.
    - eapply Permutation_trans; [apply Permutation_sym; exact Hp1|].
      eapply Permutation_trans; [exact Hperm|exact Hp2]. }
  subst its2. exists its1. auto.
Qed.

Lemma discovery_order_is_irrelevant_witness :
  let d1 := [("z.yaml", File Sample.mode_z); ("a.yaml", File Sample.mode_a)] in
  let d2 := [("a.yaml", File Sample.mode_a); ("z.yaml", File Sample.mode_z)] in
  let a := Sample.flat [("id", "a"); ("name", "A")] in
  let z := Sample.flat [("id", "z"); ("name", "Z")] in
  exists its,
    outcome (items Sample.libs (Some d1)) = Ok its
    /\ outcome (items Sample.libs (Some d2)) = Ok its
    /\ Permutation [z; a] its.
Proof.
  apply (discovery_order_is_irrelevant Sample.libs _ _ _
           [Sample.flat [("id", "a"); ("name", "A")];
            Sample.flat [("id", "z"); ("name", "Z")]]).
  - exact SampleFacts.by_code_consistent.
  - prove_loads.
  - prove_loads.
  - apply perm_swap.
  - repeat constructor; eexists; reflexivity.
  - intros a b [<-|[<-|[]]] [<-|[<-|[]]] H;
      try reflexivity; vm_compute in H; discriminate.
Defined.

Lemma compare_ids_no_id (P : platform) (a b : value) :
  ~ has_string_id a -> compare_ids P a b = Throw TypeError.
Proof.
  intros Hno. unfold compare_ids.
  destruct a as [| | | | |elements props|fields]; simpl; try reflexivity.
  - destruct (lookup "id" props) as [v|] eqn:E; [|reflexivity].
    destruct v; try reflexivity.
    exfalso. apply Hno. exists s. simpl. rewrite E. reflexivity.
  - destruct (lookup "id" fields) as [v|] eqn:E; [|reflexivity].
    destruct v; try reflexivity.
    exfalso. apply Hno. exists s. simpl. rewrite E. reflexivity.
Qed.

Lemma sort_backwards_no_ids (P : platform) (vs : list value) :
  2 <= List.length vs ->
  Forall (fun v => ~ has_string_id v) vs ->
  sort_backwards (compare_ids P) vs = Throw TypeError.
Proof.
  induction vs as [|x rest IH]; simpl; intros Hlen Hno; [lia|].
  inversion Hno as [|? ? Hx Hrest]; subst.
  destruct rest as [|y rest'].
  - simpl in Hlen. lia.
  - destruct rest' as [|z rest''].
    + simpl. rewrite (compare_ids_no_id P x y Hx). reflexivity.
    + rewrite IH; [reflexivity|simpl; lia|exact Hrest].
Qed.

Lemma array_sort_no_ids (P : platform) (vs : list value) :
  2 <= List.length vs ->
  Forall (fun v => ~ has_string_id v) vs ->
  array_sort (compare_ids P) vs = Throw TypeError.
Proof.
  intros Hlen Hno. unfold array_sort.
  rewrite sort_backwards_no_ids; [reflexivity| |apply Forall_rev; exact Hno].
  rewrite length_rev. exact Hlen.
Qed.

(** X4.  With two or more scanned entries, none of which carries a string
    [id], the comparator raises a TypeError whichever entry the sort
    hands it first: the run aborts and nothing is written. *)
Theorem entries_without_ids_abort (P : platform) (d : directory)
    (vs : list value) :
  scanned P d vs ->
  Forall (fun v => v <> VNull) vs ->
  Forall (fun v => ~ has_string_id v) vs ->
  2 <= List.length vs ->
  outcome (main P (Some d)) = Throw TypeError
  /\ final (main P (Some d)) = Some d
  /\ Forall (fun ev => is_write ev = false) (events (main P (Some d))).
Proof.
  intros Hs Hnn Hno Hlen.
  assert (Hitems : outcome (items P (Some d)) = Throw TypeError).
  { rewrite items_run.
    destruct (scanned_load_cases P d vs Hs Hnn) as [Hall|Hthrow].
    - rewrite (scanned_loaded P d vs Hall).
      unfold outcome; simpl. apply array_sort_no_ids; assumption.
    - rewrite Hthrow. reflexivity. }
  rewrite (main_abort P d _ Hitems). repeat split.
  apply items_no_write.
Qed.

Lemma entries_without_ids_abort_witness :
  let d := [("one.yaml", File Sample.no_fields);
            ("two.yaml", File Sample.no_fields)] in
  outcome (main Sample.libs (Some d)) = Throw TypeError
  /\ final (main Sample.libs (Some d)) = Some d
  /\ Forall (fun ev => is_write ev = false) (events (main Sample.libs (Some d))).
Proof.
  apply (entries_without_ids_abort Sample.libs _
           [Sample.flat [("description", "notes")];
            Sample.flat [("description", "notes")]]).
  - repeat constructor; eexists; split; reflexivity.
  - repeat constructor; discriminate.
  - repeat constructor; intros [s H]; discriminate.
  - simpl; lia.
Defined.

(** ** Which entry the comparator is called on *)














(** ** The run, case by case *)

(** X5.  A run that completes: it lists the directory, reads each
    selected file and logs its mode's name, file by file in the order of
    discovery (not in the sorted order), writes the document once and
    logs the summary, whose count is the number of selected files. *)
Theorem completed_run_trace (P : platform) (d : directory)
    (vs its : list value) :
  scanned P d vs ->
  Forall (fun v => v <> VNull) vs ->
  outcome (items P (Some d)) = Ok its ->
  lookup marketplace d <> Some Dir ->
  main P (Some d)
  = (Ok tt, Some (store marketplace (output P its) d),
     Listed :: load_trace (inputs d) vs
     ++ [Wrote marketplace (output P its); Logged (summary its)])
  /\ List.length its = List.length (inputs d).
Proof.
  intros Hs Hn Hitems Hdir.
  pose proof (array_map_trace P d _ _
                (proj1 (items_ok_loads P d vs its Hs Hitems))) as Hmap.
  pose proof Hitems as Hsort.
  rewrite items_run, Hmap in Hsort. unfold outcome at 1 in Hsort; simpl in Hsort.
  split.
  - rewrite main_run, Hitems.
    assert (Hev : events (items P (Some d)) = Listed :: load_trace (inputs d) vs).
    { rewrite items_run, Hmap. unfold outcome, events; simpl.
      destruct (array_sort (compare_ids P) vs); reflexivity. }
    rewrite Hev.
    destruct (lookup marketplace d) as [[c| |]|]; try reflexivity; congruence.
  - unfold outcome in Hsort; simpl in Hsort.
    rewrite <- (Permutation_length (array_sort_perm _ _ _ Hsort)).
    symmetry. eapply Forall2_length. exact Hs.
Qed.

Lemma completed_run_trace_witness :
  let d := [("z.yaml", File Sample.mode_z); ("notes.txt", File "scratch");
            ("a.yaml", File Sample.mode_a)] in
  let a := Sample.flat [("id", "a"); ("name", "A")] in
  let z := Sample.flat [("id", "z"); ("name", "Z")] in
  main Sample.libs (Some d)
  = (Ok tt, Some (store marketplace (output Sample.libs [a; z]) d),
     Listed :: load_trace (inputs d) [z; a]
     ++ [Wrote marketplace (output Sample.libs [a; z]); Logged (summary [a; z])])
  /\ List.length [a; z] = List.length (inputs d).
Proof.
  apply completed_run_trace.
  - repeat constructor; eexists; split; reflexivity.
  - repeat constructor; discriminate.
  - reflexivity.
  - discriminate.
Defined.

(** X6.  The scan stops at the first selected file that cannot be
    loaded.  When the files before it load and it is a directory, a link
    to nothing, a file that does not parse, one that parses to [null], or
    one whose [name] does not convert to a string, the run ends with
    [EISDIR], [ENOENT], the exception of the parser, a TypeError, or the
    exception of the conversion respectively; the files after it are
    never read, nothing is written and the directory is unchanged. *)
Theorem first_failure_stops_the_scan (P : platform) (d : directory)
    (pre post : list string) (f : string) (vs : list value)
    (e : exn) (ev : list event) :
  inputs d = pre ++ f :: post ->
  Forall2 (loads_to P d) pre vs ->
  load_fails P d f e ev ->
  main P (Some d) = (Throw e, Some d, Listed :: load_trace pre vs ++ ev).
Proof.
  intros Hin Hpre Hf.
  pose proof (array_map_stops P d pre f post vs e ev Hpre Hf) as Hmap.
  rewrite <- Hin in Hmap.
  assert (Hitems : items P (Some d)
                   = (Throw e, Some d, Listed :: load_trace pre vs ++ ev)).
  { rewrite items_run, Hmap. reflexivity. }
  rewrite main_run, Hitems. reflexivity.
Qed.

Lemma first_failure_stops_the_scan_witness :
  let d := [("a.yaml", File Sample.mode_a); ("odd.yaml", File Sample.odd_name);
            ("bad.yaml", File Sample.unclosed)] in
  main Sample.libs (Some d)
  = (Throw TypeError, Some d,
     Listed :: load_trace ["a.yaml"] [Sample.flat [("id", "a"); ("name", "A")]]
     ++ [ReadFile "odd.yaml"]).
Proof.
  apply (first_failure_stops_the_scan Sample.libs _ ["a.yaml"] ["bad.yaml"]
           "odd.yaml").
  - reflexivity.
  - prove_loads.
  - apply (fails_name _ _ _ Sample.odd_name
             (VMap [("id", VStr "odd");
                    ("name", VMap [("toString", VStr "text")])]));
      (reflexivity || discriminate).
Defined.

(** X7.  When the output location is a directory, every selected file is
    still read and logged, and the run then ends with [EISDIR] at the
    write: no document is written, no summary is logged and the directory
    is unchanged. *)
Theorem output_directory_blocks_write (P : platform) (d : directory)
    (vs its : list value) :
  scanned P d vs ->
  Forall (fun v => v <> VNull) vs ->
  outcome (items P (Some d)) = Ok its ->
  lookup marketplace d = Some Dir ->
  main P (Some d) = (Throw EISDIR, Some d, Listed :: load_trace (inputs d) vs).
Proof.
  intros Hs Hn Hitems Hdir.
  pose proof (array_map_trace P d _ _
                (proj1 (items_ok_loads P d vs its Hs Hitems))) as Hmap.
  rewrite main_run, Hitems, Hdir. f_equal.
  rewrite items_run, Hmap. unfold outcome, events; simpl.
  destruct (array_sort (compare_ids P) vs); reflexivity.
Qed.

Lemma output_directory_blocks_write_witness :
  let d := [("a.yaml", File Sample.mode_a); (marketplace, Dir)] in
  main Sample.libs (Some d)
  = (Throw EISDIR, Some d,
     Listed :: load_trace (inputs d) [Sample.flat [("id", "a"); ("name", "A")]]).
Proof.
  apply (output_directory_blocks_write Sample.libs _ _
           [Sample.flat [("id", "a"); ("name", "A")]]).
  - repeat constructor; eexists; split; reflexivity.
  - repeat constructor; discriminate.
  - reflexivity.
  - reflexivity.
Defined.



(** ** What a run leaves alone *)

(** X9.  A run in which an exception is raised before the write, while
    the directory is listed or the files are read, parsed, logged and
    sorted, ends with that exception and has written nothing: the
    directory is exactly as it was found. *)
Theorem failure_before_write_changes_nothing (P : platform) (w : world)
    (e : exn) :
  outcome (items P w) = Throw e ->
  outcome (main P w) = Throw e
  /\ final (main P w) = w
  /\ Forall (fun ev => is_write ev = false) (events (main P w)).
Proof.
  destruct w as [d|].
  - intros H. rewrite (main_abort P d e H).
    repeat split. apply items_no_write.
  - intros H. rewrite main_missing. cbv in H. injection H as <-.
    repeat split. constructor.
Qed.

Lemma failure_before_write_changes_nothing_witness :
  let w := Some [("a.yaml", File Sample.mode_a); ("broken.yaml", Dir);
                 (marketplace, File "previous")] in
  outcome (main Sample.libs w) = Throw EISDIR
  /\ final (main Sample.libs w) = w
  /\ Forall (fun ev => is_write ev = false) (events (main Sample.libs w)).
Proof.
  apply (failure_before_write_changes_nothing Sample.libs _ EISDIR).
  reflexivity.
Defined.



(** ** What a completed run needs *)

(** X13.  A run completes only over valid input: the directory exists,
    the output location is not a directory, and every selected entry is
    a regular file whose content parses to a value other than [null].
    The completed run leaves a regular file at the output location. *)
Theorem completed_run_needs_valid_inputs (P : platform) (w : world) :
  outcome (main P w) = Ok tt ->
  exists d,
    w = Some d
    /\ lookup marketplace d <> Some Dir
    /\ Forall (fun f => exists v, loads_to P d f v) (inputs d)
    /\ exists data, manifest_of (final (main P w)) = Some (File data).
Proof.
  destruct w as [d|]; [|discriminate].
  rewrite main_run. intros H. exists d.
  destruct (outcome (items P (Some d))) as [its|e] eqn:E; [|discriminate].
  assert (Hdir : lookup marketplace d <> Some Dir).
  { intros L. rewrite L in H. discriminate. }
  split; [reflexivity|]. split; [exact Hdir|]. split.
  - rewrite items_run in E.
    destruct (outcome (array_map (load_mode P) (inputs d) (Some d)))
      as [vs|e] eqn:El; [|discriminate].
    apply array_map_ok_inv in El. clear - El.
    induction El as [|f v fs vs Hf _ IH]; constructor; [|exact IH].
    exists v. exact Hf.
  - exists (output P its).
    destruct (lookup marketplace d) as [[c| |]|]; try congruence;
      unfold final, manifest_of; simpl; apply lookup_store_same.
Qed.

Lemma completed_run_needs_valid_inputs_witness :
  let w := Some [("a.yaml", File Sample.mode_a)] in
  exists d,
    w = Some d
    /\ lookup marketplace d <> Some Dir
    /\ Forall (fun f => exists v, loads_to Sample.libs d f v) (inputs d)
    /\ exists data, manifest_of (final (main Sample.libs w)) = Some (File data).
Proof.
  apply completed_run_needs_valid_inputs. reflexivity.
Defined.

(** ** The file filter *)

Lemma length_app_string (p s : string) :
  String.length (p ++ s) = String.length p + String.length s.
Proof.
  induction p as [|a p IH]; simpl; [reflexivity|]. rewrite IH. reflexivity.
Qed.

Lemma substring_after_prefix (p s : string) :
  substring (String.length p) (String.length s) (p ++ s)%string = s.
Proof.
  induction p as [|a p IH]; simpl; [|exact IH].
  induction s as [|b s IHs]; simpl; [reflexivity|]. rewrite IHs. reflexivity.
Qed.

Lemma substring_split (s : string) (k : nat) :
  k <= String.length s ->
  s = (substring 0 k s ++ substring k (String.length s - k) s)%string.
Proof.
  revert k. induction s as [|a s IH]; intros k Hk; simpl in Hk.
  - assert (k = 0) by lia. subst k. reflexivity.
  - destruct k as [|k].
    + simpl. f_equal.
      clear. induction s as [|b s IHs]; simpl; [reflexivity|].
      rewrite <- IHs. reflexivity.
    + simpl. f_equal. apply IH. lia.
Qed.

Lemma endsWith_iff (s suffix : string) :
  endsWith s suffix = true <-> exists p, s = (p ++ suffix)%string.
Proof.
  unfold endsWith. rewrite andb_true_iff, Nat.leb_le, String.eqb_eq. split.
  - intros [Hle Hsub].
    exists (substring 0 (String.length s - String.length suffix) s).
    pose proof (substring_split s (String.length s - String.length suffix))
      as H.
    replace (String.length s - (String.length s - String.length suffix))
      with (String.length suffix) in H by lia.
    rewrite Hsub in H. apply H. lia.
  - intros [p ->]. rewrite length_app_string. split; [lia|].
    replace (String.length p + String.length suffix - String.length suffix)
      with (String.length p) by lia.
    apply substring_after_prefix.
Qed.

(** X14.  The filter selects exactly the names made of some stem, possibly
    empty, followed by [.yaml], the output file's own name excepted. *)
Theorem selected_iff_yaml_suffix (file : string) :
  selected file = true <->
  (exists stem, file = (stem ++ ".yaml")%string) /\ file <> "marketplace.yaml".
Proof.
  rewrite selected_true_iff, endsWith_iff. reflexivity.
Qed.

(** ** Input that is already in order *)

Lemma array_sort_of_sorted {A} (comparefn : A -> A -> result Z)
    (good : A -> Prop) (c : A -> A -> Z) (l : list A) :
  (forall a b, good a -> good b -> comparefn a b = Ok (c a b)) ->
  (forall a b, (c a b <= 0)%Z -> (0 <= c b a)%Z) ->
  Forall good l ->
  StronglySorted (fun a b => (c a b <= 0)%Z) l ->
  array_sort comparefn l = Ok l.
Proof.
  intros Hagree Hanti Hgood Hs. unfold array_sort.
  rewrite (sort_backwards_of_sorted comparefn good c Hagree (rev l) Hanti).
  - simpl. rewrite rev_involutive. reflexivity.
  - apply Forall_rev. exact Hgood.
  - apply (sorted_rev (fun a b => (c b a <= 0)%Z)). exact Hs.
Qed.

(** X15.  When the selected files all load and the directory lists
    them already in ascending order of [id], under a [localeCompare] that
    is a consistent comparison, the sort leaves them as they are: [items]
    is the loaded entries in their order of discovery. *)
Theorem sorted_listing_is_kept (P : platform) (d : directory)
    (vs : list value) :
  consistent (localeCompare P) ->
  Forall2 (loads_to P d) (inputs d) vs ->
  Forall has_string_id vs ->
  StronglySorted (id_le P) vs ->
  outcome (items P (Some d)) = Ok vs.
Proof.
  intros Hc Hs Hids Hsorted.
  rewrite items_run, (scanned_loaded P d vs Hs).
  unfold outcome; simpl.
  apply (array_sort_of_sorted (compare_ids P) has_string_id
           (fun a b => localeCompare P (id_str a) (id_str b)));
    [apply compare_ids_agree| |exact Hids|exact Hsorted].
  intros a b. apply consistent_anti. exact Hc.
Qed.

Lemma sorted_listing_is_kept_witness :
  let d := [("a.yaml", File Sample.mode_a); ("dup1.yaml", File Sample.dup_1);
            ("dup2.yaml", File Sample.dup_2); ("z.yaml", File Sample.mode_z)] in
  outcome (items Sample.libs (Some d))
  = Ok [Sample.flat [("id", "a"); ("name", "A")];
        Sample.flat [("id", "dup"); ("name", "First")];
        Sample.flat [("id", "dup"); ("name", "Second")];
        Sample.flat [("id", "z"); ("name", "Z")]].
Proof.
  apply sorted_listing_is_kept.
  - exact SampleFacts.by_code_consistent.
  - prove_loads.
  - repeat constructor; eexists; reflexivity.
  - repeat constructor; unfold id_le; vm_compute; discriminate.
Defined.
